(** * Pickup-protocol mailbox: the Redis-persisted undelivered queue and the
      delivery handlers that drive it.

    The development embeds

    - [undelivered_queue/base.py]            ([message_id_for_outbound]),
    - [undelivered_queue/redis_persisted_queue.py] ([RedisUndeliveredQueue]),
    - [protocol/delivery.py]                 ([DeliveryRequest], [MessagesReceived]),
    - [__init__.py]                          ([undeliverable])

    over a small functional model of the Redis commands the queue issues.

    Conventions.

    - A Python [bytes] value is a [string] (a list of 8-bit characters).
      Message identifiers are bytes as well, the form in which Redis returns
      the members of an index and in which the handlers pass them.
    - Python exceptions are the [Raise] outcome of a state-and-error monad;
      the state reached before the raise is kept, as in Python.
    - Redis is one keyspace: the index of a recipient key (a sorted set) and
      the payload of a message identifier (a string) are keys of the same
      map, each with an optional expiry deadline.  A command finds a key
      whose deadline has passed absent.
    - Clock readings ([time.time()]) and scores are integers in one unit
      (seconds); client and server read the same clock.  Every store method
      takes the reading [now] it makes, and the Redis commands of one method
      call run at that instant.  A handler takes one reading per store call. *)

From Stdlib Require Import ZArith String Sorted.
From stdpp Require Import base option list gmap strings fin_maps sorting.

Local Open Scope Z_scope.

Abbreviation bytes := string.

(** ** Exceptions and the state-and-error monad *)

Inductive exn : Type :=
| ValueError (what : string)
| HandlerException (what : string)
| ResponseError (what : string).

Inductive outcome (A : Type) : Type :=
| Return (a : A)
| Raise (e : exn).
Arguments Return {A} a.
Arguments Raise {A} e.

Definition io (S A : Type) : Type := S → outcome A * S.

Definition ret {S A} (a : A) : io S A := λ s, (Return a, s).

Definition raise {S A} (e : exn) : io S A := λ s, (Raise e, s).

Definition bind {S A B} (m : io S A) (k : A → io S B) : io S B :=
  λ s, match m s with
       | (Return a, s') => k a s'
       | (Raise e, s') => (Raise e, s')
       end.

Notation "'do' x <- m ; k" := (bind m (λ x, k))
  (at level 10, x name, m at level 100, k at level 200, only parsing).
Notation "'do_' m ; k" := (bind m (λ _, k))
  (at level 10, m at level 100, k at level 200, only parsing).

(** Python truthiness of a list. *)
Definition nonempty {A} (l : list A) : bool :=
  match l with [] => false | _ :: _ => true end.

(** ** The Redis commands used by the queue *)

Module Redis.

(** A key holds a string value or a sorted set (member ↦ score); it may
    carry an expiry deadline.  All keys live in one keyspace. *)
Inductive rvalue : Type :=
| RString (v : bytes)
| RZSet (z : gmap string Z).

Record entry : Type := Entry { value : rvalue; deadline : option Z }.

Abbreviation db := (gmap string entry).

(** A key with deadline [d] is gone for every command run after [d],
    whether or not the server has reclaimed its memory. *)
Definition alive (now : Z) (e : entry) : bool :=
  match deadline e with
  | None => true
  | Some d => bool_decide (now ≤ d)
  end.

Definition live (now : Z) (s : db) (k : string) : option entry :=
  match s !! k with
  | Some e => if alive now e then Some e else None
  | None => None
  end.

Definition wrongtype : exn :=
  ResponseError "WRONGTYPE Operation against a key holding the wrong kind of value".

Definition wrongargs : exn :=
  ResponseError "wrong number of arguments".

(** The sorted set a sorted-set command sees at [k]: a missing key is the
    empty set, a string is a type error. *)
Definition lookup_zset (now : Z) (s : db) (k : string) : outcome (gmap string Z) :=
  match live now s k with
  | None => Return ∅
  | Some (Entry (RZSet z) _) => Return z
  | Some (Entry (RString _) _) => Raise wrongtype
  end.

Definition live_deadline (now : Z) (s : db) (k : string) : option Z :=
  match live now s k with
  | Some e => deadline e
  | None => None
  end.

(** Redis never keeps an empty sorted set: the key goes with its last
    member. *)
Definition store_zset (k : string) (z : gmap string Z) (d : option Z) (s : db) : db :=
  if decide (z = ∅) then delete k s else <[k := Entry (RZSet z) d]> s.

(** Members are ranked by score, ties by member bytes. *)
Definition member_le (a b : string * Z) : Prop :=
  a.2 < b.2 ∨ (a.2 = b.2 ∧ String.leb a.1 b.1 = true).

#[global] Instance member_le_dec : RelDecision member_le.
Proof. intros a b. unfold member_le. apply _. Defined.

Definition ordered (z : gmap string Z) : list (string * Z) :=
  merge_sort member_le (map_to_list z).

(** Index ranges as ZRANGE reads them: negative positions count from the
    end, both ends are inclusive, out-of-range ends are clipped. *)
Definition slice {A} (l : list A) (start stop : Z) : list A :=
  let n := Z.of_nat (length l) in
  let start := if bool_decide (start < 0) then n + start else start in
  let stop := if bool_decide (stop < 0) then n + stop else stop in
  let start := if bool_decide (start < 0) then 0 else start in
  if bool_decide (stop < start ∨ n ≤ start) then []
  else
    let stop := if bool_decide (n ≤ stop) then n - 1 else stop in
    take (Z.to_nat (stop - start + 1)) (drop (Z.to_nat start) l).

(** ZADD key NX score member *)
Definition zadd_nx (now : Z) (k member : string) (score : Z) : io db Z :=
  λ s, match lookup_zset now s k with
       | Raise e => (Raise e, s)
       | Return z =>
           match z !! member with
           | Some _ => (Return 0, s)
           | None =>
               (Return 1,
                <[k := Entry (RZSet (<[member := score]> z)) (live_deadline now s k)]> s)
           end
       end.

(** EXPIRE key seconds *)
Definition expire (now : Z) (k : string) (seconds : Z) : io db bool :=
  λ s, match live now s k with
       | None => (Return false, s)
       | Some e =>
           if bool_decide (seconds ≤ 0) then (Return true, delete k s)
           else (Return true, <[k := Entry (value e) (Some (now + seconds))]> s)
       end.

(** SETEX key seconds value *)
Definition setex (now : Z) (k : string) (seconds : Z) (v : bytes) : io db bool :=
  λ s, if bool_decide (seconds ≤ 0)
       then (Raise (ResponseError "invalid expire time in 'setex' command"), s)
       else (Return true, <[k := Entry (RString v) (Some (now + seconds))]> s).

(** ZRANGE key start stop *)
Definition zrange (now : Z) (k : string) (start stop : Z) : io db (list string) :=
  λ s, match lookup_zset now s k with
       | Raise e => (Raise e, s)
       | Return z => (Return (slice (ordered z).*1 start stop), s)
       end.

(** ZRANGE key min max BYSCORE *)
Definition zrange_byscore (now : Z) (k : string) (min max : Z) : io db (list string) :=
  λ s, match lookup_zset now s k with
       | Raise e => (Raise e, s)
       | Return z =>
           (Return (filter (λ e, min ≤ e.2 ∧ e.2 ≤ max) (ordered z)).*1, s)
       end.

(** ZCARD key *)
Definition zcard (now : Z) (k : string) : io db Z :=
  λ s, match lookup_zset now s k with
       | Raise e => (Raise e, s)
       | Return z => (Return (Z.of_nat (size z)), s)
       end.

(** MGET key...; the client answers an empty key list with an empty list. *)
Definition string_at (now : Z) (s : db) (k : string) : option bytes :=
  match live now s k with
  | Some (Entry (RString v) _) => Some v
  | _ => None
  end.

Definition mget (now : Z) (ks : list string) : io db (list (option bytes)) :=
  λ s, (Return (string_at now s <$> ks), s).

Definition remove_members (members : list string) (z : gmap string Z) : gmap string Z :=
  foldr delete z members.

(** ZREM key member... *)
Definition zrem (now : Z) (k : string) (members : list string) : io db Z :=
  λ s, match members with
       | [] => (Raise wrongargs, s)
       | _ =>
           match lookup_zset now s k with
           | Raise e => (Raise e, s)
           | Return z =>
               let z' := remove_members members z in
               (Return (Z.of_nat (size z) - Z.of_nat (size z')),
                if decide (z' = z) then s
                else store_zset k z' (live_deadline now s k) s)
           end
       end.

(** DEL key... *)
Definition delete_keys (now : Z) (ks : list string) : io db Z :=
  λ s, match ks with
       | [] => (Raise wrongargs, s)
       | _ =>
           (Return (Z.of_nat (length (filter (λ k, is_Some (live now s k)) (remove_dups ks)))),
            foldr delete s ks)
       end.

End Redis.

(** ** The message identifier ([undelivered_queue/base.py]) *)

(** [hashlib.sha256] followed by [base58.b58encode] and [str.encode]: the
    library functions the identifier is computed with.  Nothing below
    depends on which functions they are. *)
Class Digest : Type := {
  b58_sha256 : bytes → string;
  utf8_encode : string → bytes
}.

Inductive message : Type :=
| Bytes (b : bytes)
| Str (s : string).

Definition message_id_for_outbound `{Digest} (msg : message) : string :=
  b58_sha256 (match msg with Str s => utf8_encode s | Bytes b => b end).

(** ** The persisted queue ([undelivered_queue/redis_persisted_queue.py]) *)

Module RedisUndeliveredQueue.

(** [self.queue_by_key], the Redis handle, is the threaded state
    [Redis.db]; the object itself keeps the retention time. *)
Record t : Type := { ttl_seconds : Z }.

(** Python [x or d] on an optional integer. *)
Definition or_default (x : option Z) (d : Z) : Z :=
  match x with
  | Some v => if bool_decide (v = 0) then d else v
  | None => d
  end.

Definition __init__ (ttl_seconds : option Z) : outcome t :=
  if match ttl_seconds with Some v => bool_decide (v ≤ 0) | None => false end
  then Raise (ValueError "Time to live must be a positive integer")
  else Return {| ttl_seconds := or_default ttl_seconds (60 * 60 * 24 * 3) |}.

Definition expire_helper (self : t) (now : Z) (key : string) : io Redis.db unit :=
  do msg_idents <- Redis.zrange_byscore now key 0 (now - ttl_seconds self);
  if nonempty msg_idents
  then do_ Redis.zrem now key msg_idents; ret ()
  else ret ().

Definition add_message `{Digest} (self : t) (now : Z)
    (recipient_key : string) (msg : bytes) : io Redis.db unit :=
  let msg_loaded := msg in
  let msg_ident := message_id_for_outbound (Bytes msg_loaded) in
  let msg_score := now in
  let key := recipient_key in
  do_ Redis.zadd_nx now key msg_ident msg_score;
  do_ Redis.expire now key (ttl_seconds self);
  do_ Redis.setex now msg_ident (ttl_seconds self) msg_loaded;
  ret ().

Definition has_message_for_key (self : t) (now : Z)
    (recipient_key : string) : io Redis.db bool :=
  do_ expire_helper self now recipient_key;
  do msg_ident <- Redis.zrange now recipient_key 0 0;
  ret (nonempty msg_ident).

Definition message_count_for_key (self : t) (now : Z)
    (key : string) : io Redis.db Z :=
  do_ expire_helper self now key;
  do count <- Redis.zcard now key;
  ret count.

Definition get_messages_for_key (self : t) (now : Z)
    (recipient_key : string) (count : Z) : io Redis.db (list bytes) :=
  do_ expire_helper self now recipient_key;
  do msg_idents <- Redis.zrange now recipient_key 0 (count - 1);
  do msgs <- Redis.mget now msg_idents;
  ret (omap id msgs).

Definition inspect_all_messages_for_key (self : t) (now : Z)
    (recipient_key : string) : io Redis.db (list (option bytes)) :=
  do_ expire_helper self now recipient_key;
  do msg_idents <- Redis.zrange now recipient_key 0 (-1);
  if nonempty msg_idents
  then do msgs <- Redis.mget now msg_idents; ret msgs
  else ret [].

(** [set(known) & set(msg_idents)]: the known identifiers the caller
    named.  ZREM and DEL take them in any order.  Identifiers are compared
    as bytes, the form in which ZRANGE returns the members. *)
Definition intersection (known msg_idents : list string) : list string :=
  filter (λ i, i ∈ msg_idents) (remove_dups known).

Definition remove_messages_for_key (self : t) (now : Z)
    (recipient_key : string) (msg_idents : list string) : io Redis.db unit :=
  do_ expire_helper self now recipient_key;
  do known_msg_idents <- Redis.zrange now recipient_key 0 (-1);
  let intersection := intersection known_msg_idents msg_idents in
  if nonempty intersection
  then do_ Redis.zrem now recipient_key intersection;
       do_ Redis.delete_keys now intersection;
       ret ()
  else ret ().

End RedisUndeliveredQueue.

(** ** The delivery protocol ([protocol/delivery.py]) *)

Record TransportDecorator : Type := { return_route : option string }.

(** The fields of [AgentMessage] the handlers read. *)
Record AgentMessage : Type := {
  thread_id : string;
  transport : option TransportDecorator
}.

Record Attach : Type := { ident : string; data : bytes }.

Module Status.
Record t : Type := {
  thread : option string;
  recipient_key : option string;
  message_count : Z
}.
End Status.

Module Delivery.
Record t : Type := {
  thread : option string;
  recipient_key : option string;
  message_attachments : list Attach
}.
End Delivery.

Inductive reply : Type :=
| DeliveryReply (m : Delivery.t)
| StatusReply (m : Status.t).

(** Modelled from the spec: [assign_thread_from], of the [acapy] package of
    this repository, copies the thread identifier of the inbound message
    onto the outbound reply. *)
Definition assign_thread_from (request : AgentMessage) : option string :=
  Some (thread_id request).

(** Modelled from the spec: [UndeliveredQueue.ident_from_message], absent
    from [undelivered_queue/base.py] as given, is the message identifier
    of the payload, the one [add_message] files it under. *)
Definition ident_from_message `{Digest} (msg : bytes) : string :=
  message_id_for_outbound (Bytes msg).

(** [context.inject(UndeliveredQueue)] and
    [context.message_receipt.sender_verkey]. *)
Record RequestContext : Type := {
  queue : RedisUndeliveredQueue.t;
  sender_verkey : string
}.

(** What a handler acts on: the store and the replies the responder has
    sent, oldest first. *)
Record world : Type := { redis : Redis.db; sent : list reply }.

Definition on_queue {A} (m : io Redis.db A) : io world A :=
  λ w, let '(r, s) := m (redis w) in (r, {| redis := s; sent := sent w |}).

Definition send_reply (r : reply) : io world unit :=
  λ w, (Return (), {| redis := redis w; sent := sent w ++ [r] |}).

(** [not self.transport or self.transport.return_route != "all"] *)
Definition lacks_return_route_all (m : AgentMessage) : bool :=
  match transport m with
  | None => true
  | Some d => bool_decide (return_route d ≠ Some "all"%string)
  end.

Module DeliveryRequest.

Record t : Type := {
  base : AgentMessage;
  limit : Z;
  recipient_key : option string
}.

(** The store is read twice, at the clock readings [t_has] and [t_get]. *)
Definition handle `{Digest} (self : t) (context : RequestContext) (t_has t_get : Z)
  : io world unit :=
  if lacks_return_route_all (base self)
  then raise (HandlerException
                "DeliveryRequest must have transport decorator with return route set to all")
  else
    let queue := queue context in
    let key := sender_verkey context in
    do has <- on_queue (RedisUndeliveredQueue.has_message_for_key queue t_has key);
    if (has : bool)
    then
      do msgs <- on_queue (RedisUndeliveredQueue.get_messages_for_key queue t_get key (limit self));
      let message_attachments :=
        (λ msg, {| ident := ident_from_message msg; data := msg |}) <$> msgs in
      send_reply (DeliveryReply
        {| Delivery.thread := assign_thread_from (base self);
           Delivery.recipient_key := None;
           Delivery.message_attachments := message_attachments |})
    else
      send_reply (StatusReply
        {| Status.thread := assign_thread_from (base self);
           Status.recipient_key := recipient_key self;
           Status.message_count := 0 |}).

End DeliveryRequest.

Module MessagesReceived.

Record t : Type := {
  base : AgentMessage;
  message_id_list : gset string
}.

(** The store is called at the clock readings [t_has], [t_remove] and
    [t_count]. *)
Definition handle (self : t) (context : RequestContext) (t_has t_remove t_count : Z)
  : io world unit :=
  if lacks_return_route_all (base self)
  then raise (HandlerException
                "MessageReceived must have transport decorator with return route set to all")
  else
    let queue := queue context in
    let key := sender_verkey context in
    do has <- on_queue (RedisUndeliveredQueue.has_message_for_key queue t_has key);
    do_ (if (has : bool)
         then on_queue (RedisUndeliveredQueue.remove_messages_for_key queue t_remove key
                          (elements (message_id_list self)))
         else ret ());
    do count <- on_queue (RedisUndeliveredQueue.message_count_for_key queue t_count key);
    send_reply (StatusReply
      {| Status.thread := assign_thread_from (base self);
         Status.recipient_key := None;
         Status.message_count := count |}).

End MessagesReceived.

(** * Reading the model

    The definitions below name what the statements speak of: the index a
    method reads, the expiry test of the sweep, and the store each method
    leaves. *)

Import Redis RedisUndeliveredQueue.

(** The key [k] holds no string value. *)
Definition no_string (s : db) (k : string) : Prop :=
  ∀ v d, s !! k ≠ Some (Entry (RString v) d).

(** The sorted set read at [k], empty when there is none. *)
Definition index (now : Z) (s : db) (k : string) : gmap string Z :=
  match lookup_zset now s k with
  | Return z => z
  | Raise _ => ∅
  end.

Definition by_score (a b : string * Z) : Prop := a.2 ≤ b.2.

(** A member is swept when its score lies in [0, now - ttl]. *)
Definition expired (self : t) (now : Z) (e : string * Z) : Prop :=
  0 ≤ e.2 ∧ e.2 ≤ now - ttl_seconds self.

#[global] Instance expired_dec self now e : Decision (expired self now e).
Proof. unfold expired. apply _. Defined.

Definition unexpired (self : t) (now : Z) (z : gmap string Z) : gmap string Z :=
  filter (λ e, ¬ expired self now e) z.

(** The store after the expiry sweep of [k]. *)
Definition swept (self : t) (now : Z) (k : string) (s : db) : db :=
  let z := index now s k in
  if decide (unexpired self now z = z) then s
  else store_zset k (unexpired self now z) (live_deadline now s k) s.

(** The sorted set after [ZADD NX]: a member already there keeps its score. *)
Definition enqueued (z : gmap string Z) (i : string) (now : Z) : gmap string Z :=
  match z !! i with
  | Some _ => z
  | None => <[i := now]> z
  end.

(** The store after [add_message]. *)
Definition added `{Digest} (self : t) (now : Z) (key : string) (msg : bytes) (s : db) : db :=
  let i := message_id_for_outbound (Bytes msg) in
  <[i := Entry (RString msg) (Some (now + ttl_seconds self))]>
    (<[key := Entry (RZSet (enqueued (index now s key) i now))
                    (Some (now + ttl_seconds self))]> s).

(** The identifiers [remove_messages_for_key] strikes: the unexpired
    members of the index that the caller named. *)
Definition hit (self : t) (now : Z) (k : string) (msg_idents : list string) (s : db)
  : list string :=
  intersection (ordered (unexpired self now (index now s k))).*1 msg_idents.

(** The store after [remove_messages_for_key]. *)
Definition removed (self : t) (now : Z) (k : string) (msg_idents : list string) (s : db) : db :=
  let s1 := swept self now k s in
  let z1 := index now s1 k in
  let hit := intersection (ordered z1).*1 msg_idents in
  if nonempty hit
  then foldr delete (store_zset k (remove_members hit z1) (live_deadline now s1 k) s1) hit
  else s1.

(** The store as a backend that reclaims nothing would hold it: every key
    kept, whatever its deadline. *)
Definition retained (s : db) : db := (λ e, Entry (value e) None) <$> s.

(** The store a method call leaves. *)
Definition after {A} (m : io db A) (s : db) : db := (m s).2.

(** The transport decorator is absent, or its return route is not "all". *)
Definition no_return_route (m : AgentMessage) : Prop :=
  ∀ d, transport m = Some d → return_route d ≠ Some "all"%string.

(** A stand-in digest for the worked instances: the payload, tagged. *)
Definition tagged_digest : Digest :=
  {| b58_sha256 := λ b, ("id:" ++ b)%string; utf8_encode := λ s, s |}.

(** The fixtures of the worked instances: a queue retaining ten seconds, a
    request base with and without return route, the context of a sender
    key, and the store holding message ["m"] for ["K"]. *)
Definition ten_seconds : t := {| ttl_seconds := 10 |}.

Definition routed : AgentMessage :=
  {| thread_id := "thread-1"; transport := Some {| return_route := Some "all"%string |} |}.

Definition unrouted : AgentMessage :=
  {| thread_id := "thread-1"; transport := None |}.

Definition context_of (key : string) : RequestContext :=
  {| queue := ten_seconds; sender_verkey := key |}.

Definition one_message_store : db :=
  after (add_message (H := tagged_digest) ten_seconds 0 "K" "m") ∅.

(** * More of the code *)

(** ** Sessions ([DeliveryRequest.determine_session], [protocol/delivery.py])

    [manager.sessions] is a dictionary from session identifier to session;
    its values come in insertion order.  Of a session only [reply_verkeys],
    a set of keys, is read. *)

Record InboundSession : Type := { reply_verkeys : gset string }.

Record InboundTransportManager : Type := {
  sessions : list (string * InboundSession)
}.

(** The loop [for session in manager.sessions.values()]. *)
Fixpoint session_among (values : list InboundSession) (key : string)
  : option InboundSession :=
  match values with
  | [] => None
  | session :: rest =>
      if bool_decide (key ∈ reply_verkeys session) then Some session
      else session_among rest key
  end.

Definition determine_session (manager : InboundTransportManager) (key : string)
  : option InboundSession :=
  session_among (sessions manager).*2 key.

(** ** The undeliverable-event handler ([undeliverable], [__init__.py])

    The host and its libraries are collaborators of the handler: what they
    compute is given by functions, and what they raise is kept as a value of
    [E].  [encode_message] is [wire_format.encode_message], called with the
    session the profile provides.  [protected_recipients] is the reading of
    the protected header,
    [json.loads(urlsafe_b64decode(json.loads(enc_payload)["protected"]))["recipients"]],
    which raises when the envelope is not JSON, has no such field or is not
    padded base64; each entry of the list it returns is the [kid] of its
    header, [recipient["header"]["kid"]], or what that lookup raises.
    [IndexError] is what [target_list[0]] raises on an empty list.  The
    queue injected is the Redis queue.  An envelope is taken as bytes: a
    textual one is stored as its UTF-8 bytes, the bytes its identifier is
    computed from. *)

Record ConnectionTarget : Type := {
  recipient_keys : list string;
  routing_keys : option (list string);
  sender_key : option string
}.

(** The fields of [OutboundMessage] the handler reads, over the type [P] of
    plain payloads. *)
Record OutboundMessage (P : Type) : Type := {
  payload : P;
  enc_payload : option bytes;
  target_list : list ConnectionTarget
}.

Arguments payload {P} _.
Arguments enc_payload {P} _.
Arguments target_list {P} _.

(** How a run of the handler ends: it returns, or it propagates an
    exception of the host or one of the queue. *)
Inductive ended (E : Type) : Type :=
| Completed
| HostRaised (e : E)
| QueueRaised (e : exn).

Arguments Completed {E}.
Arguments HostRaised {E} e.
Arguments QueueRaised {E} e.

Section undeliverable.
Context `{Digest} {E P : Type}.
Variable IndexError : E.
Variable encode_message : P → list string → list string → option string → E + bytes.
Variable protected_recipients : bytes → E + list (E + string).

(** [outbound.enc_payload] when the handler comes to read the protected
    header: the envelope as given, or, [if not outbound.enc_payload], the
    one encoded for the first target. *)
Definition wire_form (outbound : OutboundMessage P) : E + bytes :=
  match enc_payload outbound with
  | Some (String c rest) => inr (String c rest)
  | _ =>
      match target_list outbound with
      | [] => inl IndexError
      | target :: _ =>
          encode_message (payload outbound) (recipient_keys target)
            (default [] (routing_keys target)) (sender_key target)
      end
  end.

(** The loop [for recipient in protected_headers["recipients"]]; the call
    for the [j]-th recipient reads the clock as [clock (n + j)]. *)
Fixpoint add_for_recipients (queue : t) (clock : nat → Z) (n : nat)
    (recipients : list (E + string)) (enc_payload : bytes) (s : db) : ended E * db :=
  match recipients with
  | [] => (Completed, s)
  | inl e :: _ => (HostRaised e, s)
  | inr kid :: rest =>
      match add_message queue (clock n) kid enc_payload s with
      | (Return _, s') => add_for_recipients queue clock (S n) rest enc_payload s'
      | (Raise e, s') => (QueueRaised e, s')
      end
  end.

(** The handler returns how it ended, the event payload, whose
    [enc_payload] it may have set, and the store. *)
Definition undeliverable (queue : t) (clock : nat → Z)
    (outbound : OutboundMessage P) (s : db) : ended E * OutboundMessage P * db :=
  match wire_form outbound with
  | inl e => (HostRaised e, outbound, s)
  | inr enc =>
      let outbound :=
        {| payload := payload outbound;
           enc_payload := Some enc;
           target_list := target_list outbound |} in
      match protected_recipients enc with
      | inl e => (HostRaised e, outbound, s)
      | inr recipients =>
          let '(r, s') := add_for_recipients queue clock 0 recipients enc s in
          (r, outbound, s')
      end
  end.

End undeliverable.

(** Every payload of the store is filed under its own identifier. *)
Definition payloads_filed `{Digest} (s : db) : Prop :=
  ∀ i v d, s !! i = Some (Entry (RString v) d) → i = message_id_for_outbound (Bytes v).

(** The store of the worked instances after a second message, ["n"], at
    time 9. *)
Definition two_message_store : db :=
  after (add_message (H := tagged_digest) ten_seconds 9 "K" "n") one_message_store.

(** * Facts about the Redis model *)

#[global] Instance member_le_total : Total member_le.
Proof.
  intros [a x] [b y]. unfold member_le. simpl.
  destruct (Z.lt_trichotomy x y) as [?|[->|?]]; [by left; left| |by right; left].
  destruct (String.leb_total a b); [left|right]; right; done.
Qed.

Lemma ordered_perm (z : gmap string Z) : ordered z ≡ₚ map_to_list z.
Proof. apply merge_sort_Permutation. Qed.

Lemma elem_of_ordered (z : gmap string Z) i sc :
  (i, sc) ∈ ordered z ↔ z !! i = Some sc.
Proof. rewrite ordered_perm. apply elem_of_map_to_list. Qed.

Lemma elem_of_ordered_fst (z : gmap string Z) i :
  i ∈ (ordered z).*1 ↔ is_Some (z !! i).
Proof.
  rewrite list_elem_of_fmap. split.
  - intros [[j sc] [-> Hin]]. apply elem_of_ordered in Hin. eauto.
  - intros [sc Hsc]. exists (i, sc). split; [done|]. by apply elem_of_ordered.
Qed.

Lemma NoDup_ordered_fst (z : gmap string Z) : NoDup (ordered z).*1.
Proof. rewrite ordered_perm. apply NoDup_fst_map_to_list. Qed.

Lemma length_ordered (z : gmap string Z) : length (ordered z) = size z.
Proof. rewrite ordered_perm. by rewrite length_map_to_list. Qed.

Lemma ordered_empty : ordered ∅ = [].
Proof. unfold ordered. by rewrite map_to_list_empty. Qed.

Lemma ordered_nil (z : gmap string Z) : ordered z = [] ↔ z = ∅.
Proof.
  split; [|intros ->; apply ordered_empty].
  intros Hnil. apply map_size_empty_iff. rewrite <- length_ordered, Hnil. done.
Qed.

Lemma ordered_singleton i sc : ordered {[i := sc]} = [(i, sc)].
Proof. unfold ordered. by rewrite map_to_list_singleton. Qed.

Lemma Sorted_weaken {A} (R R' : A → A → Prop) (l : list A) :
  (∀ a b, R a b → R' a b) → Sorted R l → Sorted R' l.
Proof.
  intros HR. induction 1 as [|a l Hs IH Hhd]; constructor; [done|].
  destruct Hhd; constructor; auto.
Qed.

Lemma ordered_by_score (z : gmap string Z) : StronglySorted by_score (ordered z).
Proof.
  apply Sorted_StronglySorted.
  - intros a b c. unfold by_score. lia.
  - apply (Sorted_weaken member_le); [|apply (Sorted_merge_sort _)].
    intros a b [?|[? _]]; unfold by_score; lia.
Qed.

Lemma slice_first {A} (l : list A) : slice l 0 0 = take 1 l.
Proof.
  unfold slice. destruct l as [|a l]; [done|].
  repeat case_bool_decide; simpl length in *; try lia; simpl; try done.
Qed.

Lemma slice_all {A} (l : list A) : slice l 0 (-1) = l.
Proof.
  unfold slice. destruct l as [|a l]; [done|].
  repeat case_bool_decide; simpl length in *; try lia.
  replace (Z.to_nat _) with (length (a :: l)) by (simpl length; lia).
  by rewrite drop_0, firstn_all.
Qed.

Lemma slice_limit {A} (l : list A) (count : Z) :
  1 ≤ count → slice l 0 (count - 1) = take (Z.to_nat count) l.
Proof.
  intros Hc. unfold slice.
  repeat case_bool_decide; try lia; rewrite ?drop_0.
  - rewrite take_ge; [|lia]. destruct l; [done|simpl length in *; lia].
  - rewrite !take_ge; [done|lia|lia].
  - f_equal. lia.
Qed.

Lemma nonempty_true {A} (l : list A) : nonempty l = true ↔ l ≠ [].
Proof. by destruct l. Qed.

Lemma nonempty_false {A} (l : list A) : nonempty l = false ↔ l = [].
Proof. by destruct l. Qed.

Lemma lookup_remove_members (members : list string) (z : gmap string Z) i :
  remove_members members z !! i = if decide (i ∈ members) then None else z !! i.
Proof.
  unfold remove_members. induction members as [|m members IH]; cbn [foldr].
  - rewrite decide_False; [done|]. apply not_elem_of_nil.
  - destruct (decide (m = i)) as [->|Hne].
    + rewrite lookup_delete_eq. rewrite decide_True; [done|]. apply elem_of_cons. by left.
    + rewrite lookup_delete_ne by done. rewrite IH.
      destruct (decide (i ∈ members)) as [Hin|Hin].
      * rewrite decide_True; [done|]. apply elem_of_cons. by right.
      * rewrite decide_False; [done|]. rewrite elem_of_cons. intros [?|?]; congruence.
Qed.

Lemma remove_members_filter (P : string * Z → Prop) `{!∀ e, Decision (P e)}
    (z : gmap string Z) :
  remove_members (filter P (ordered z)).*1 z = filter (λ e, ¬ P e) z.
Proof.
  apply map_eq. intros i. rewrite lookup_remove_members.
  destruct (z !! i) as [sc|] eqn:Hi.
  - destruct (decide (P (i, sc))) as [HP|HP].
    + rewrite decide_True.
      * symmetry. apply map_lookup_filter_None. right. intros sc' Hi'. naive_solver.
      * apply list_elem_of_fmap. exists (i, sc). split; [done|].
        apply list_elem_of_filter. split; [exact HP|]. by apply elem_of_ordered.
    + rewrite decide_False.
      * symmetry. by apply map_lookup_filter_Some.
      * rewrite list_elem_of_fmap. intros [[j sc'] [Hj Hin]]. simpl in Hj. subst j.
        apply list_elem_of_filter in Hin as [HP' Hin].
        apply elem_of_ordered in Hin. naive_solver.
  - transitivity (@None Z); [by case_decide|].
    symmetry. apply map_lookup_filter_None. by left.
Qed.

Lemma remove_members_elements (members : list string) (z : gmap string Z) :
  remove_members members z = filter (λ e, e.1 ∉ members) z.
Proof.
  apply map_eq. intros i. rewrite lookup_remove_members.
  destruct (z !! i) as [sc|] eqn:Hi; case_decide.
  - symmetry. apply map_lookup_filter_None. right. intros sc' _. simpl. naive_solver.
  - symmetry. by apply map_lookup_filter_Some.
  - symmetry. apply map_lookup_filter_None. by left.
  - symmetry. apply map_lookup_filter_None. by left.
Qed.

Lemma lookup_zset_index now s k :
  no_string s k → lookup_zset now s k = Return (index now s k).
Proof.
  intros Hk. unfold index, lookup_zset, live.
  destruct (s !! k) as [[[v|z] d]|] eqn:Hs; [by destruct (Hk v d)| |done].
  by destruct (alive _ _).
Qed.

Lemma alive_live_deadline now s k v :
  alive now (Entry v (live_deadline now s k)) = true.
Proof.
  unfold live_deadline, live.
  destruct (s !! k) as [e|]; [|done].
  destruct (alive now e) eqn:He; [|done]. by destruct e.
Qed.

Lemma live_insert_eq now s k e :
  alive now e = true → live now (<[k := e]> s) k = Some e.
Proof. intros He. unfold live. by rewrite lookup_insert_eq, He. Qed.

Lemma live_insert_ne now s k k' e :
  k ≠ k' → live now (<[k := e]> s) k' = live now s k'.
Proof. intros. unfold live. by rewrite lookup_insert_ne. Qed.

Lemma live_delete_eq now (s : db) k : live now (delete k s) k = None.
Proof. unfold live. by rewrite lookup_delete_eq. Qed.

Lemma live_delete_ne now (s : db) k k' :
  k ≠ k' → live now (delete k s) k' = live now s k'.
Proof. intros. unfold live. by rewrite lookup_delete_ne. Qed.

Lemma lookup_store_zset_ne k k' z d (s : db) :
  k ≠ k' → store_zset k z d s !! k' = s !! k'.
Proof.
  intros. unfold store_zset. case_decide.
  - by rewrite lookup_delete_ne.
  - by rewrite lookup_insert_ne.
Qed.

Lemma lookup_zset_store now k z (s : db) :
  lookup_zset now (store_zset k z (live_deadline now s k) s) k = Return z.
Proof.
  unfold store_zset, lookup_zset. case_decide as Hz.
  - by rewrite live_delete_eq, Hz.
  - rewrite live_insert_eq; [done|]. apply alive_live_deadline.
Qed.

Lemma no_string_store k k' z d (s : db) :
  no_string s k' → no_string (store_zset k z d s) k'.
Proof.
  intros Hk v d'. destruct (decide (k = k')) as [->|Hne].
  - unfold store_zset. case_decide.
    + by rewrite lookup_delete_eq.
    + by rewrite lookup_insert_eq.
  - rewrite lookup_store_zset_ne by done. apply Hk.
Qed.

(** * What each queue method computes *)

Lemma fmap_fst_nil (l : list (string * Z)) : l.*1 = [] → l = [].
Proof. by destruct l. Qed.

Lemma expire_helper_run self now k s :
  no_string s k →
  expire_helper self now k s = (Return (), swept self now k s).
Proof.
  intros Hk. unfold expire_helper, bind, zrange_byscore, swept, unexpired.
  rewrite (lookup_zset_index _ _ _ Hk).
  set (z := index now s k).
  pose proof (remove_members_filter (expired self now) z) as Hrm.
  unfold expired in Hrm at 1.
  destruct ((filter _ (ordered z)).*1) as [|i ids] eqn:Hids; cbn [nonempty].
  - unfold ret. f_equal. rewrite <- Hrm. unfold remove_members. cbn [foldr].
    by rewrite decide_True.
  - unfold zrem, ret. rewrite (lookup_zset_index _ _ _ Hk). fold z.
    rewrite Hrm. by case_decide.
Qed.

Lemma unexpired_idemp self now z :
  unexpired self now (unexpired self now z) = unexpired self now z.
Proof.
  unfold unexpired. apply map_eq. intros i.
  destruct (filter _ z !! i) as [sc|] eqn:Hi.
  - apply map_lookup_filter_Some. split; [done|].
    by apply map_lookup_filter_Some in Hi as [_ ?].
  - apply map_lookup_filter_None. by left.
Qed.

Lemma unexpired_empty self now : unexpired self now ∅ = ∅.
Proof. apply map_filter_empty. Qed.

Lemma lookup_unexpired_Some self now z i sc :
  unexpired self now z !! i = Some sc ↔ z !! i = Some sc ∧ ¬ expired self now (i, sc).
Proof. apply map_lookup_filter_Some. Qed.

Lemma lookup_swept_ne self now k k' s : k ≠ k' → swept self now k s !! k' = s !! k'.
Proof.
  intros. unfold swept. case_decide; [done|]. by apply lookup_store_zset_ne.
Qed.

Lemma no_string_swept self now k k' s :
  no_string s k' → no_string (swept self now k s) k'.
Proof.
  intros. unfold swept. case_decide; [done|]. by apply no_string_store.
Qed.

Lemma index_store now k z s :
  index now (store_zset k z (live_deadline now s k) s) k = z.
Proof. unfold index. by rewrite lookup_zset_store. Qed.

Lemma index_swept self now k s :
  index now (swept self now k s) k = unexpired self now (index now s k).
Proof.
  unfold swept. case_decide as Hz; [by rewrite Hz|]. apply index_store.
Qed.

Lemma live_ext now (s s' : db) k : s !! k = s' !! k → live now s k = live now s' k.
Proof. unfold live. by intros ->. Qed.

Lemma index_ext now (s s' : db) k : s !! k = s' !! k → index now s k = index now s' k.
Proof. intros H. unfold index, lookup_zset. by rewrite (live_ext _ _ _ _ H). Qed.

Lemma string_at_ext now (s s' : db) k :
  s !! k = s' !! k → string_at now s k = string_at now s' k.
Proof. intros H. unfold string_at. by rewrite (live_ext _ _ _ _ H). Qed.

Lemma swept_idemp self now k s :
  swept self now k (swept self now k s) = swept self now k s.
Proof.
  unfold swept at 1. rewrite index_swept, unexpired_idemp. by rewrite decide_True.
Qed.

Lemma has_message_run self now k s :
  no_string s k →
  has_message_for_key self now k s =
    (Return (bool_decide (unexpired self now (index now s k) ≠ ∅)), swept self now k s).
Proof.
  intros Hk. unfold has_message_for_key, bind.
  rewrite (expire_helper_run _ _ _ _ Hk). unfold zrange.
  rewrite (lookup_zset_index _ _ _ (no_string_swept _ _ _ _ _ Hk)), index_swept.
  unfold ret. f_equal. f_equal. rewrite slice_first.
  set (z := unexpired self now (index now s k)).
  destruct (ordered z) as [|e l] eqn:Hz.
  - apply ordered_nil in Hz. cbn. rewrite bool_decide_eq_false_2; [done|].
    intros Hn. by apply Hn.
  - simpl. rewrite bool_decide_eq_true_2; [done|].
    intros Hz'. apply ordered_nil in Hz'. congruence.
Qed.

Lemma message_count_run self now k s :
  no_string s k →
  message_count_for_key self now k s =
    (Return (Z.of_nat (size (unexpired self now (index now s k)))), swept self now k s).
Proof.
  intros Hk. unfold message_count_for_key, bind.
  rewrite (expire_helper_run _ _ _ _ Hk). unfold zcard.
  by rewrite (lookup_zset_index _ _ _ (no_string_swept _ _ _ _ _ Hk)), index_swept.
Qed.

Lemma get_messages_run self now k count s :
  no_string s k →
  get_messages_for_key self now k count s =
    (Return (omap id (string_at now (swept self now k s) <$>
               slice (ordered (unexpired self now (index now s k))).*1 0 (count - 1))),
     swept self now k s).
Proof.
  intros Hk. unfold get_messages_for_key, bind.
  rewrite (expire_helper_run _ _ _ _ Hk). unfold zrange.
  by rewrite (lookup_zset_index _ _ _ (no_string_swept _ _ _ _ _ Hk)), index_swept.
Qed.

Lemma inspect_all_run self now k s :
  no_string s k →
  inspect_all_messages_for_key self now k s =
    (Return (string_at now (swept self now k s) <$>
               (ordered (unexpired self now (index now s k))).*1),
     swept self now k s).
Proof.
  intros Hk. unfold inspect_all_messages_for_key, bind.
  rewrite (expire_helper_run _ _ _ _ Hk). unfold zrange.
  rewrite (lookup_zset_index _ _ _ (no_string_swept _ _ _ _ _ Hk)), index_swept.
  rewrite slice_all. by destruct ((ordered _).*1).
Qed.

Lemma index_lookup_live now s k i sc :
  index now s k !! i = Some sc →
  ∃ d, live now s k = Some (Entry (RZSet (index now s k)) d).
Proof.
  unfold index, lookup_zset. destruct (live now s k) as [[[v|z] d]|]; [done| |done].
  eauto.
Qed.

Lemma add_message_run `{Digest} self now key msg s :
  0 < ttl_seconds self →
  no_string s key →
  add_message self now key msg s = (Return (), added self now key msg s).
Proof.
  intros Httl Hk. unfold add_message, added, bind, zadd_nx, enqueued.
  rewrite (lookup_zset_index _ _ _ Hk).
  set (i := message_id_for_outbound (Bytes msg)).
  destruct (index now s key !! i) as [sc|] eqn:Hi.
  - destruct (index_lookup_live _ _ _ _ _ Hi) as [d Hlive].
    unfold expire. rewrite Hlive. rewrite bool_decide_eq_false_2 by lia.
    unfold setex. rewrite bool_decide_eq_false_2 by lia. done.
  - unfold expire. rewrite live_insert_eq by apply alive_live_deadline.
    rewrite bool_decide_eq_false_2 by lia.
    unfold setex. rewrite bool_decide_eq_false_2 by lia.
    cbn. by rewrite insert_insert_eq.
Qed.

Lemma elem_of_intersection known msg_idents i :
  i ∈ intersection known msg_idents ↔ i ∈ known ∧ i ∈ msg_idents.
Proof.
  unfold intersection. rewrite list_elem_of_filter, elem_of_remove_dups. tauto.
Qed.

Lemma remove_members_hit (hit : list string) (z : gmap string Z) i :
  i ∈ hit → is_Some (z !! i) → remove_members hit z ≠ z.
Proof.
  intros Hin [sc Hsc] Heq.
  assert (remove_members hit z !! i = Some sc) as Hl by by rewrite Heq.
  rewrite lookup_remove_members in Hl. by rewrite decide_True in Hl.
Qed.

Lemma remove_messages_run self now k msg_idents s :
  no_string s k →
  remove_messages_for_key self now k msg_idents s =
    (Return (), removed self now k msg_idents s).
Proof.
  intros Hk. unfold remove_messages_for_key, removed, bind.
  rewrite (expire_helper_run _ _ _ _ Hk).
  pose proof (no_string_swept self now k k s Hk) as Hk1.
  set (s1 := swept self now k s) in *.
  unfold zrange. rewrite (lookup_zset_index _ _ _ Hk1). rewrite slice_all.
  set (z1 := index now s1 k).
  destruct (intersection (ordered z1).*1 msg_idents) as [|i hit] eqn:Hhit; [done|].
  cbn [nonempty]. unfold zrem. rewrite (lookup_zset_index _ _ _ Hk1). fold z1.
  rewrite decide_False; [done|].
  apply (remove_members_hit _ _ i); [apply elem_of_cons; by left|].
  assert (i ∈ intersection (ordered z1).*1 msg_idents) as Hi
    by (rewrite Hhit; apply elem_of_cons; by left).
  apply elem_of_intersection in Hi as [Hi _]. by apply elem_of_ordered_fst.
Qed.

Lemma lookup_delete_keys {A} (ks : list string) (m : gmap string A) k :
  foldr delete m ks !! k = if decide (k ∈ ks) then None else m !! k.
Proof.
  induction ks as [|k' ks IH]; cbn [foldr].
  - rewrite decide_False; [done|]. apply not_elem_of_nil.
  - destruct (decide (k' = k)) as [->|Hne].
    + rewrite lookup_delete_eq. rewrite decide_True; [done|]. apply elem_of_cons. by left.
    + rewrite lookup_delete_ne by done. rewrite IH.
      destruct (decide (k ∈ ks)) as [Hin|Hin].
      * rewrite decide_True; [done|]. apply elem_of_cons. by right.
      * rewrite decide_False; [done|]. rewrite elem_of_cons. intros [?|?]; congruence.
Qed.

Lemma no_string_delete_keys ks (s : db) k :
  no_string s k → no_string (foldr delete s ks) k.
Proof.
  intros Hk v d. rewrite lookup_delete_keys. case_decide; [done|]. apply Hk.
Qed.

Lemma index_delete_keys now ks (s : db) k :
  k ∉ ks → index now (foldr delete s ks) k = index now s k.
Proof. intros Hk. apply index_ext. by rewrite lookup_delete_keys, decide_False. Qed.

Lemma index_delete_keys_hit now ks (s : db) k :
  k ∈ ks → index now (foldr delete s ks) k = ∅.
Proof.
  intros Hk. unfold index, lookup_zset, live.
  by rewrite lookup_delete_keys, decide_True.
Qed.

Lemma elem_of_hit self now k msg_idents s i :
  i ∈ hit self now k msg_idents s ↔
  i ∈ msg_idents ∧ is_Some (unexpired self now (index now s k) !! i).
Proof. unfold hit. rewrite elem_of_intersection, elem_of_ordered_fst. tauto. Qed.

Lemma removed_unfold self now k msg_idents s :
  removed self now k msg_idents s =
    let s1 := swept self now k s in
    let h := hit self now k msg_idents s in
    if nonempty h
    then foldr delete
           (store_zset k (remove_members h (unexpired self now (index now s k)))
              (live_deadline now s1 k) s1) h
    else s1.
Proof. unfold removed, hit. by rewrite index_swept. Qed.

Lemma no_string_removed self now k k' msg_idents s :
  no_string s k' → no_string (removed self now k msg_idents s) k'.
Proof.
  intros Hk. unfold removed. destruct (nonempty _).
  - apply no_string_delete_keys, no_string_store. by apply no_string_swept.
  - by apply no_string_swept.
Qed.

Lemma lookup_removed_ne self now k k' msg_idents s :
  k' ≠ k →
  removed self now k msg_idents s !! k' =
    if decide (k' ∈ hit self now k msg_idents s) then None else s !! k'.
Proof.
  intros Hne. rewrite removed_unfold. cbn zeta.
  destruct (hit self now k msg_idents s) as [|i h] eqn:Hh; cbn [nonempty].
  - rewrite decide_False by apply not_elem_of_nil. by apply lookup_swept_ne.
  - rewrite lookup_delete_keys. case_decide; [done|].
    rewrite lookup_store_zset_ne by done. by apply lookup_swept_ne.
Qed.

Lemma remove_members_intersection (z : gmap string Z) msg_idents :
  remove_members (intersection (ordered z).*1 msg_idents) z =
    filter (λ e, e.1 ∉ msg_idents) z.
Proof.
  apply map_eq. intros i. rewrite lookup_remove_members.
  destruct (z !! i) as [sc|] eqn:Hi.
  - destruct (decide (i ∈ msg_idents)) as [Hin|Hin].
    + rewrite decide_True.
      * symmetry. apply map_lookup_filter_None. right. intros sc' _ Hn. by apply Hn.
      * apply elem_of_intersection. split; [|done]. apply elem_of_ordered_fst. eauto.
    + rewrite decide_False.
      * symmetry. by apply map_lookup_filter_Some.
      * rewrite elem_of_intersection. tauto.
  - transitivity (@None Z); [by case_decide|].
    symmetry. apply map_lookup_filter_None. by left.
Qed.

Lemma index_removed self now k msg_idents s :
  index now s k !! k = None →
  index now (removed self now k msg_idents s) k =
    filter (λ e, e.1 ∉ msg_idents) (unexpired self now (index now s k)).
Proof.
  intros Hself. rewrite <- remove_members_intersection. fold (hit self now k msg_idents s).
  rewrite removed_unfold. cbn zeta.
  destruct (hit self now k msg_idents s) as [|i h] eqn:Hh; cbn [nonempty].
  - by rewrite index_swept.
  - rewrite index_delete_keys; [apply index_store|].
    rewrite <- Hh, elem_of_hit. intros [_ [sc Hsc]].
    apply lookup_unexpired_Some in Hsc as [Hsc _]. congruence.
Qed.

Lemma removed_no_hit self now k msg_idents s :
  (∀ i, i ∈ msg_idents → unexpired self now (index now s k) !! i = None) →
  removed self now k msg_idents s = swept self now k s.
Proof.
  intros Hno. rewrite removed_unfold. cbn zeta.
  destruct (hit self now k msg_idents s) as [|i h] eqn:Hh; [done|].
  assert (i ∈ hit self now k msg_idents s) as Hi by (rewrite Hh; apply elem_of_cons; by left).
  apply elem_of_hit in Hi as [Hi [sc Hsc]]. rewrite (Hno i Hi) in Hsc. done.
Qed.

Lemma index_removed_named self now k msg_idents s i :
  i ∈ msg_idents → index now (removed self now k msg_idents s) k !! i = None.
Proof.
  intros Hi. rewrite removed_unfold. cbn zeta.
  destruct (hit self now k msg_idents s) as [|j h] eqn:Hh; cbn [nonempty].
  - rewrite index_swept.
    destruct (unexpired self now (index now s k) !! i) as [sc|] eqn:Hsc; [|done].
    assert (i ∈ hit self now k msg_idents s) as Hin by (apply elem_of_hit; eauto).
    rewrite Hh in Hin. by apply not_elem_of_nil in Hin.
  - rewrite <- Hh. set (h' := hit self now k msg_idents s).
    destruct (decide (k ∈ h')) as [Hk|Hk].
    + by rewrite index_delete_keys_hit.
    + rewrite index_delete_keys, index_store by done.
      rewrite lookup_remove_members.
      case_decide as Hn; [done|].
      destruct (unexpired self now (index now s k) !! i) as [sc|] eqn:Hsc; [|done].
      destruct Hn. apply elem_of_hit. eauto.
Qed.

Lemma unexpired_index_removed self now k msg_idents s :
  unexpired self now (index now (removed self now k msg_idents s) k) =
    index now (removed self now k msg_idents s) k.
Proof.
  rewrite removed_unfold. cbn zeta.
  destruct (hit self now k msg_idents s) as [|j h] eqn:Hh; cbn [nonempty].
  - by rewrite index_swept, unexpired_idemp.
  - rewrite <- Hh. set (h' := hit self now k msg_idents s).
    destruct (decide (k ∈ h')) as [Hk|Hk].
    + rewrite index_delete_keys_hit by done. apply unexpired_empty.
    + rewrite index_delete_keys, index_store by done.
      rewrite remove_members_elements. unfold unexpired.
      rewrite !map_filter_filter.
      apply map_filter_ext. intros ? ? ?. cbn. tauto.
Qed.

Lemma swept_fixed self now k s :
  unexpired self now (index now s k) = index now s k → swept self now k s = s.
Proof. intros Hz. unfold swept. by rewrite decide_True. Qed.

Lemma removed_idemp self now k msg_idents s :
  removed self now k msg_idents (removed self now k msg_idents s) =
    removed self now k msg_idents s.
Proof.
  rewrite (removed_no_hit _ _ _ _ (removed _ _ _ _ s)).
  - apply swept_fixed, unexpired_index_removed.
  - intros i Hi. rewrite unexpired_index_removed. by apply index_removed_named.
Qed.

Lemma index_later now now' s k :
  now ≤ now' → index now' s k = index now s k ∨ index now' s k = ∅.
Proof.
  intros Hle. unfold index, lookup_zset, live, alive.
  destruct (s !! k) as [[v [d|]]|]; cbn; [|by left..].
  repeat case_bool_decide; try lia; auto.
Qed.

Lemma removed_later self now now' k msg_idents s :
  now ≤ now' →
  removed self now' k msg_idents (removed self now k msg_idents s) =
    swept self now' k (removed self now k msg_idents s).
Proof.
  intros Hle. apply removed_no_hit. intros i Hi.
  destruct (unexpired self now' _ !! i) as [sc|] eqn:Hsc; [|done].
  apply lookup_unexpired_Some in Hsc as [Hsc _].
  destruct (index_later now now' (removed self now k msg_idents s) k Hle) as [Hz|Hz];
    rewrite Hz in Hsc; [|done].
  by rewrite index_removed_named in Hsc.
Qed.

(** * Construction *)

(** C9. A zero or negative TTL is refused when the queue is constructed,
    and a queue constructed without a TTL retains messages for three days,
    259200 seconds. *)
Theorem init_ttl_policy :
  (∀ v, v ≤ 0 →
     __init__ (Some v) = Raise (ValueError "Time to live must be a positive integer"))
  ∧ __init__ None = Return {| ttl_seconds := 259200 |}.
Proof.
  split; [|done]. intros v Hv. unfold __init__.
  by rewrite bool_decide_eq_true_2.
Qed.

Lemma init_ttl_policy_witness :
  __init__ (Some (-5)) = Raise (ValueError "Time to live must be a positive integer").
Proof. apply (proj1 init_ttl_policy (-5)). lia. Defined.

(** * The handlers *)

Lemma lacks_return_route_all_true m :
  no_return_route m → lacks_return_route_all m = true.
Proof.
  unfold no_return_route, lacks_return_route_all. intros Hm.
  destruct (transport m) as [d|]; [|done].
  apply bool_decide_eq_true_2. by apply Hm.
Qed.

(** C7. A DeliveryRequest or MessagesReceived message without an
    all-return-route transport decorator fails with a HandlerException;
    no reply is sent and the store is left as it was. *)
Theorem return_route_enforced `{Digest}
    (dr : DeliveryRequest.t) (mr : MessagesReceived.t)
    (context : RequestContext) (t1 t2 t3 : Z) (w : world) :
  (no_return_route (DeliveryRequest.base dr) →
     ∃ what, DeliveryRequest.handle dr context t1 t2 w = (Raise (HandlerException what), w))
  ∧ (no_return_route (MessagesReceived.base mr) →
     ∃ what, MessagesReceived.handle mr context t1 t2 t3 w = (Raise (HandlerException what), w)).
Proof.
  split; intros Hm; eexists.
  - unfold DeliveryRequest.handle. by rewrite (lacks_return_route_all_true _ Hm).
  - unfold MessagesReceived.handle. by rewrite (lacks_return_route_all_true _ Hm).
Qed.

Lemma on_queue_run {A} (m : io db A) (s : db) (l : list reply) r s' :
  m s = (r, s') →
  on_queue m {| redis := s; sent := l |} = (r, {| redis := s'; sent := l |}).
Proof. unfold on_queue. cbn. by intros ->. Qed.

(** C8. A MessagesReceived message that arrived with return route "all" is
    answered with exactly one Status message; it carries the thread of the
    request and the count of unexpired messages left for the sender key
    after the removal, whether or not anything was removed. *)
Theorem messages_received_status (mr : MessagesReceived.t)
    (context : RequestContext) (t_has t_remove t_count : Z) (w : world) :
  let q := queue context in
  let key := sender_verkey context in
  let s1 := swept q t_has key (redis w) in
  let s2 := if bool_decide (unexpired q t_has (index t_has (redis w) key) ≠ ∅)
            then removed q t_remove key (elements (MessagesReceived.message_id_list mr)) s1
            else s1 in
  let s3 := swept q t_count key s2 in
  let n := Z.of_nat (size (index t_count s3 key)) in
  lacks_return_route_all (MessagesReceived.base mr) = false →
  no_string (redis w) key →
  MessagesReceived.handle mr context t_has t_remove t_count w =
    (Return (),
     {| redis := s3;
        sent := sent w ++
          [StatusReply {| Status.thread := Some (thread_id (MessagesReceived.base mr));
                          Status.recipient_key := None;
                          Status.message_count := n |}] |})
  ∧ message_count_for_key q t_count key s3 = (Return n, s3)
  ∧ (∀ i sc, index t_count s3 key !! i = Some sc → ¬ expired q t_count (i, sc)).
Proof.
  intros q key s1 s2 s3 n Hroute Hk. destruct w as [s l]. cbn [redis sent] in *.
  assert (no_string s1 key) as Hk1 by by apply no_string_swept.
  assert (no_string s2 key) as Hk2.
  { subst s2. case_bool_decide; [|done]. by apply no_string_removed. }
  assert (no_string s3 key) as Hk3 by by apply no_string_swept.
  assert (index t_count s3 key = unexpired q t_count (index t_count s2 key)) as Hz3
    by apply index_swept.
  split; [|split].
  - unfold MessagesReceived.handle. rewrite Hroute. fold q key. unfold bind.
    rewrite (on_queue_run _ _ _ _ _ (has_message_run q t_has key _ Hk)). fold s1.
    assert ((if bool_decide (unexpired q t_has (index t_has s key) ≠ ∅)
             then on_queue (remove_messages_for_key q t_remove key
                              (elements (MessagesReceived.message_id_list mr)))
             else ret ()) {| redis := s1; sent := l |}
            = (Return (), {| redis := s2; sent := l |})) as ->.
    { subst s2. case_bool_decide; [|done].
      by rewrite (on_queue_run _ _ _ _ _ (remove_messages_run q t_remove key _ _ Hk1)). }
    rewrite (on_queue_run _ _ _ _ _ (message_count_run q t_count key _ Hk2)).
    fold s3. unfold send_reply, assign_thread_from. cbn. subst n. by rewrite Hz3.
  - rewrite (message_count_run _ _ _ _ Hk3). subst n.
    rewrite Hz3, unexpired_idemp. unfold s3. by rewrite swept_idemp.
  - intros i sc. rewrite Hz3. intros Hi. by apply lookup_unexpired_Some in Hi as [_ ?].
Qed.

(** C6. [remove_messages_for_key] raises nothing and strikes exactly the
    identifiers that are both named by the caller and present, unexpired,
    in the index of the key: they leave the index and the payload table,
    every other key of the store is as it was, and named identifiers that
    are not present are passed over.  A second call with the same
    identifiers at the same clock reading returns the same store; at a
    later reading it does nothing beyond the expiry sweep. *)
Theorem remove_exact_and_idempotent (self : t) (now : Z) (key : string)
    (msg_idents : list string) (s : db) :
  no_string s key →
  ∃ s',
    remove_messages_for_key self now key msg_idents s = (Return (), s')
    ∧ (index now s key !! key = None →
       index now s' key =
         filter (λ e, e.1 ∉ msg_idents) (unexpired self now (index now s key)))
    ∧ (∀ k, k ≠ key →
       s' !! k =
         if decide (k ∈ msg_idents ∧ is_Some (unexpired self now (index now s key) !! k))
         then None else s !! k)
    ∧ remove_messages_for_key self now key msg_idents s' = (Return (), s')
    ∧ (∀ now', now ≤ now' →
       remove_messages_for_key self now' key msg_idents s' =
         (Return (), swept self now' key s')).
Proof.
  intros Hk. exists (removed self now key msg_idents s).
  pose proof (no_string_removed self now key key msg_idents s Hk) as Hk'.
  split; [by apply remove_messages_run|].
  split; [by apply index_removed|].
  split.
  { intros k Hne. rewrite lookup_removed_ne by done.
    destruct (decide (k ∈ hit self now key msg_idents s)) as [Hin|Hin].
    - rewrite decide_True; [done|]. by apply elem_of_hit.
    - rewrite decide_False; [done|]. by rewrite <- elem_of_hit. }
  split.
  - rewrite (remove_messages_run _ _ _ _ _ Hk'). by rewrite removed_idemp.
  - intros now' Hle. rewrite (remove_messages_run _ _ _ _ _ Hk').
    by rewrite removed_later.
Qed.

Lemma remove_exact_and_idempotent_witness :
  ∃ s', remove_messages_for_key {| ttl_seconds := 10 |} 3 "K" ["a"; "zz"]
          {[ "K"%string := Entry (RZSet {[ "a"%string := 1; "b"%string := 2 ]}) None;
             "a"%string := Entry (RString "A") None;
             "b"%string := Entry (RString "B") None ]} = (Return (), s')
        ∧ s' !! "a"%string = None
        ∧ s' !! "b"%string = Some (Entry (RString "B") None).
Proof.
  set (s := {[ "K"%string := Entry (RZSet {[ "a"%string := 1; "b"%string := 2 ]}) None;
               "a"%string := Entry (RString "A") None;
               "b"%string := Entry (RString "B") None ]} : db).
  assert (no_string s "K") as Hk by (intros v d; vm_compute; discriminate).
  destruct (remove_exact_and_idempotent {| ttl_seconds := 10 |} 3 "K" ["a"; "zz"]%string s Hk)
    as (s' & Hrun & _ & Hother & _).
  exists s'. split; [exact Hrun|]. split.
  - rewrite (Hother "a"%string) by discriminate. vm_compute. reflexivity.
  - rewrite (Hother "b"%string) by discriminate. vm_compute. reflexivity.
Defined.

Lemma omap_id_fmap {A B} (f : A → option B) (l : list A) :
  omap id (f <$> l) = omap f l.
Proof. induction l as [|a l IH]; [done|]. cbn. by rewrite IH. Qed.

Lemma length_omap_le {A B} (f : A → option B) (l : list A) :
  (length (omap f l) ≤ length l)%nat.
Proof.
  induction l as [|a l IH]; [done|]. cbn. destruct (f a); cbn; lia.
Qed.

Lemma swept_index_fixed self now k s :
  unexpired self now (index now (swept self now k s) k) = index now (swept self now k s) k.
Proof. by rewrite index_swept, unexpired_idemp. Qed.

(** C3, as the code has it.  For a limit [N ≥ 1], [get_messages_for_key]
    reads the first [N] identifiers of the swept index, which lists the
    unexpired members by non-decreasing score (their first enqueue time),
    oldest first, and returns their payloads in that order, passing over the
    identifiers without payload.  The result has at most [N] entries and at
    most as many as [message_count_for_key] counts at the same reading. *)
Theorem get_messages_oldest_first (self : t) (now : Z) (key : string) (N : Z) (s : db) :
  1 ≤ N →
  no_string s key →
  ∃ (s' : db) (msgs : list bytes),
    let z := index now s' key in
    get_messages_for_key self now key N s = (Return msgs, s')
    ∧ message_count_for_key self now key s = (Return (Z.of_nat (size z)), s')
    ∧ msgs = omap (string_at now s') (take (Z.to_nat N) (ordered z).*1)
    ∧ StronglySorted by_score (ordered z)
    ∧ (∀ e, e ∈ ordered z → ¬ expired self now e)
    ∧ Z.of_nat (length msgs) ≤ N
    ∧ (length msgs ≤ size z)%nat.
Proof.
  intros HN Hk. eexists (swept self now key s), _. cbn zeta.
  rewrite index_swept.
  split; [|split; [|split; [|split; [|split; [|split]]]]].
  - rewrite (get_messages_run _ _ _ _ _ Hk). rewrite slice_limit by done.
    by rewrite omap_id_fmap.
  - by apply message_count_run.
  - done.
  - apply ordered_by_score.
  - intros [i sc] He. apply elem_of_ordered in He.
    by apply lookup_unexpired_Some in He as [_ ?].
  - etransitivity; [apply inj_le, length_omap_le|].
    rewrite length_take. lia.
  - etransitivity; [apply length_omap_le|].
    rewrite length_take, length_fmap, length_ordered. lia.
Qed.

Lemma slice_nil {A} (start stop : Z) : slice (@nil A) start stop = [].
Proof. unfold slice. repeat case_bool_decide; by rewrite ?drop_nil, ?take_nil. Qed.

Lemma lookup_added_key `{Digest} self now key msg s :
  key ≠ message_id_for_outbound (Bytes msg) →
  added self now key msg s !! key =
    Some (Entry (RZSet (enqueued (index now s key) (message_id_for_outbound (Bytes msg)) now))
                (Some (now + ttl_seconds self))).
Proof. intros Hne. unfold added. by rewrite lookup_insert_ne, lookup_insert_eq. Qed.

Lemma lookup_added_ident `{Digest} self now key msg s :
  added self now key msg s !! message_id_for_outbound (Bytes msg) =
    Some (Entry (RString msg) (Some (now + ttl_seconds self))).
Proof. unfold added. by rewrite lookup_insert_eq. Qed.

Lemma lookup_added_ne `{Digest} self now key msg s k :
  k ≠ key → k ≠ message_id_for_outbound (Bytes msg) →
  added self now key msg s !! k = s !! k.
Proof. intros ??. unfold added. by rewrite !lookup_insert_ne. Qed.

Lemma no_string_lookup_zset (s : db) k z d :
  s !! k = Some (Entry (RZSet z) d) → no_string s k.
Proof. intros Hs v d'. by rewrite Hs. Qed.

Lemma index_lookup_zset now (s : db) k z d :
  s !! k = Some (Entry (RZSet z) d) →
  index now s k = if alive now (Entry (RZSet z) d) then z else ∅.
Proof. intros Hs. unfold index, lookup_zset, live. rewrite Hs. by destruct (alive _ _). Qed.

Lemma lookup_retained (s : db) k :
  retained s !! k = (λ e, Entry (value e) None) <$> s !! k.
Proof. unfold retained. apply lookup_fmap. Qed.

Lemma lookup_enqueued z i now sc :
  enqueued z i now !! i = Some sc → z !! i = Some sc ∨ (z !! i = None ∧ sc = now).
Proof.
  unfold enqueued. destruct (z !! i) as [sc'|] eqn:Hz.
  - rewrite Hz. auto.
  - rewrite lookup_insert_eq. intros [= <-]. auto.
Qed.

Lemma enqueued_empty i now : enqueued ∅ i now = {[i := now]}.
Proof. unfold enqueued. by rewrite lookup_empty. Qed.

Lemma unexpired_lookup_expired self now z i :
  (∀ sc, z !! i = Some sc → expired self now (i, sc)) →
  unexpired self now z !! i = None.
Proof.
  intros Hz. apply map_lookup_filter_None.
  destruct (z !! i) as [sc|] eqn:Hi; [right|by left].
  intros sc' [= <-] Hn. apply Hn. by apply Hz.
Qed.

Lemma unexpired_singleton_expired self now i sc :
  expired self now (i, sc) → unexpired self now {[i := sc]} = ∅.
Proof.
  intros He. unfold unexpired. apply map_filter_singleton_False. by intros Hn.
Qed.

(** C4. A message enqueued at time [T] under retention [S] is reported by
    no read made at a time [now ≥ T + S]: the identifier is in none of the
    index entries [has_message_for_key], [message_count_for_key] and
    [get_messages_for_key] answer from, and when it was the only message
    they answer false, 0 and the empty list.  No removal is involved, and
    the same holds on a backend that has reclaimed nothing. *)
Theorem expired_message_not_reported `{Digest} (self : t) (T now : Z)
    (key : string) (msg : bytes) (s : db) :
  let i := message_id_for_outbound (Bytes msg) in
  0 < ttl_seconds self →
  0 ≤ T →
  T + ttl_seconds self ≤ now →
  key ≠ i →
  no_string s key →
  (∀ sc, index T s key !! i = Some sc → 0 ≤ sc ∧ sc ≤ T) →
  ∃ s1,
    add_message self T key msg s = (Return (), s1)
    ∧ ∀ s2, s2 = s1 ∨ s2 = retained s1 →
      ∃ (s' : db) (z : gmap string Z),
        z !! i = None
        ∧ has_message_for_key self now key s2 = (Return (bool_decide (z ≠ ∅)), s')
        ∧ message_count_for_key self now key s2 = (Return (Z.of_nat (size z)), s')
        ∧ (∀ n, get_messages_for_key self now key n s2 =
                  (Return (omap (string_at now s') (slice (ordered z).*1 0 (n - 1))), s'))
        ∧ (index T s key = ∅ →
           has_message_for_key self now key s2 = (Return false, s')
           ∧ message_count_for_key self now key s2 = (Return 0, s')
           ∧ ∀ n, get_messages_for_key self now key n s2 = (Return [], s')).
Proof.
  intros i Httl HT Hnow Hne Hk Hold.
  exists (added self T key msg s). split; [by apply add_message_run|].
  intros s2 Hs2.
  set (z1 := enqueued (index T s key) i T).
  assert (∃ d, s2 !! key = Some (Entry (RZSet z1) d)) as [d Hkey].
  { destruct Hs2 as [->| ->].
    - eexists. by apply lookup_added_key.
    - eexists. rewrite lookup_retained, lookup_added_key by done. done. }
  pose proof (no_string_lookup_zset _ _ _ _ Hkey) as Hk2.
  assert (∀ sc, index now s2 key !! i = Some sc → expired self now (i, sc)) as Hexp.
  { intros sc. rewrite (index_lookup_zset _ _ _ _ _ Hkey).
    destruct (alive _ _); [|by rewrite lookup_empty].
    intros Hsc. apply lookup_enqueued in Hsc as [Hsc|[_ ->]]; unfold expired; cbn.
    - apply Hold in Hsc. lia.
    - lia. }
  exists (swept self now key s2), (unexpired self now (index now s2 key)).
  split; [by apply unexpired_lookup_expired|].
  split; [by apply has_message_run|].
  split; [by apply message_count_run|].
  split.
  { intros n. rewrite (get_messages_run _ _ _ _ _ Hk2). by rewrite omap_id_fmap. }
  intros Hempty.
  assert (unexpired self now (index now s2 key) = ∅) as Hz.
  { rewrite (index_lookup_zset _ _ _ _ _ Hkey).
    destruct (alive _ _); [|apply unexpired_empty].
    unfold z1. rewrite Hempty, enqueued_empty.
    apply unexpired_singleton_expired. unfold expired. cbn. lia. }
  split; [|split].
  - rewrite (has_message_run _ _ _ _ Hk2), Hz.
    rewrite bool_decide_eq_false_2; [done|]. intros Hn. by apply Hn.
  - by rewrite (message_count_run _ _ _ _ Hk2), Hz.
  - intros n. rewrite (get_messages_run _ _ _ _ _ Hk2), Hz.
    by rewrite ordered_empty, fmap_nil, slice_nil.
Qed.

Lemma index_single now (s : db) k i sc d :
  s !! k = Some (Entry (RZSet {[i := sc]}) (Some d)) →
  now ≤ d →
  index now s k = {[i := sc]}.
Proof.
  intros Hs Hd. rewrite (index_lookup_zset _ _ _ _ _ Hs).
  unfold alive. cbn. by rewrite bool_decide_eq_true_2.
Qed.

Lemma unexpired_single self now i sc :
  ¬ expired self now (i, sc) → unexpired self now {[i := sc]} = {[i := sc]}.
Proof. intros He. unfold unexpired. by apply map_filter_singleton_True. Qed.

Lemma string_at_lookup now (s : db) k v d :
  s !! k = Some (Entry (RString v) (Some d)) → now ≤ d → string_at now s k = Some v.
Proof.
  intros Hs Hd. unfold string_at, live, alive. rewrite Hs. cbn.
  by rewrite bool_decide_eq_true_2.
Qed.

Lemma string_at_missing now (s : db) k : s !! k = None → string_at now s k = None.
Proof. intros Hs. unfold string_at, live. by rewrite Hs. Qed.

Section single_entry.
Context (self : t) (now : Z) (s : db) (k i : string) (sc d : Z).
Hypothesis Hs : s !! k = Some (Entry (RZSet {[i := sc]}) (Some d)).
Hypothesis Hd : now ≤ d.
Hypothesis Hsc : ¬ expired self now (i, sc).

Lemma single_no_string : no_string s k.
Proof. by eapply no_string_lookup_zset. Qed.

Lemma single_unexpired : unexpired self now (index now s k) = {[i := sc]}.
Proof. by rewrite (index_single _ _ _ _ _ _ Hs Hd), unexpired_single. Qed.

Lemma single_swept : swept self now k s = s.
Proof.
  apply swept_fixed. rewrite single_unexpired.
  by rewrite (index_single _ _ _ _ _ _ Hs Hd).
Qed.

Lemma single_has : has_message_for_key self now k s = (Return true, s).
Proof.
  rewrite (has_message_run _ _ _ _ single_no_string), single_unexpired, single_swept.
  rewrite bool_decide_eq_true_2; [done|]. apply insert_non_empty.
Qed.

Lemma single_count : message_count_for_key self now k s = (Return 1, s).
Proof.
  rewrite (message_count_run _ _ _ _ single_no_string), single_unexpired, single_swept.
  by rewrite map_size_singleton.
Qed.

Lemma single_get n :
  1 ≤ n →
  get_messages_for_key self now k n s = (Return (omap (string_at now s) [i]), s).
Proof.
  intros Hn.
  rewrite (get_messages_run _ _ _ _ _ single_no_string), single_unexpired, single_swept.
  rewrite ordered_singleton, slice_limit, omap_id_fmap by done.
  cbn [fmap list_fmap fst]. rewrite take_ge; [done|]. cbn. lia.
Qed.

Lemma single_inspect_all :
  inspect_all_messages_for_key self now k s = (Return [string_at now s i], s).
Proof.
  rewrite (inspect_all_run _ _ _ _ single_no_string), single_unexpired, single_swept.
  by rewrite ordered_singleton.
Qed.

End single_entry.

(** What a removal keyed by [k] leaves alone: the index of any other key
    that is not itself one of the identifiers struck. *)
Lemma removed_other_index self now now' k k' msg_idents s :
  k' ≠ k →
  k' ∉ hit self now k msg_idents s →
  index now' (removed self now k msg_idents s) k' = index now' s k'.
Proof.
  intros Hne Hhit. apply index_ext.
  by rewrite lookup_removed_ne, decide_False.
Qed.

(** One payload left for two recipients, then acknowledged by the first. *)
Section shared_payload.
Context `{Digest} (self : t) (K1 K2 : string) (msg : bytes) (T1 T2 T3 : Z).
Let i := message_id_for_outbound (Bytes msg).
Let s1 := after (add_message self T1 K1 msg) ∅.
Let s2 := after (add_message self T2 K2 msg) s1.
Let s3 := after (remove_messages_for_key self T3 K1 [i]) s2.
Hypothesis Httl : 0 < ttl_seconds self.
Hypothesis HK : K1 ≠ K2.
Hypothesis HK1 : K1 ≠ i.
Hypothesis HK2 : K2 ≠ i.
Hypothesis HT12 : T1 ≤ T2.
Hypothesis HT23 : T2 ≤ T3.
Hypothesis HT31 : T3 < T1 + ttl_seconds self.

Lemma shared_s1 : s1 = added self T1 K1 msg ∅.
Proof.
  unfold s1, after. rewrite add_message_run; [done..|]. intros v d. by rewrite lookup_empty.
Qed.

Lemma shared_s1_K1 :
  s1 !! K1 = Some (Entry (RZSet {[i := T1]}) (Some (T1 + ttl_seconds self))).
Proof.
  rewrite shared_s1, lookup_added_key by done. fold i.
  unfold index, lookup_zset, live. rewrite lookup_empty. by rewrite enqueued_empty.
Qed.

Lemma shared_s1_K2 : s1 !! K2 = None.
Proof. rewrite shared_s1, lookup_added_ne by done. apply lookup_empty. Qed.

Lemma shared_s2 : s2 = added self T2 K2 msg s1.
Proof.
  unfold s2, after. rewrite add_message_run; [done..|]. intros v d. by rewrite shared_s1_K2.
Qed.

Lemma shared_s2_K2 :
  s2 !! K2 = Some (Entry (RZSet {[i := T2]}) (Some (T2 + ttl_seconds self))).
Proof.
  rewrite shared_s2, lookup_added_key by done. fold i.
  unfold index, lookup_zset, live. rewrite shared_s1_K2. by rewrite enqueued_empty.
Qed.

Lemma shared_s2_K1 :
  s2 !! K1 = Some (Entry (RZSet {[i := T1]}) (Some (T1 + ttl_seconds self))).
Proof. rewrite shared_s2, lookup_added_ne by done. apply shared_s1_K1. Qed.

Lemma shared_s2_payload :
  s2 !! i = Some (Entry (RString msg) (Some (T2 + ttl_seconds self))).
Proof. rewrite shared_s2. apply lookup_added_ident. Qed.

Lemma shared_s3 : s3 = removed self T3 K1 [i] s2.
Proof.
  unfold s3, after. rewrite remove_messages_run; [done|].
  eapply no_string_lookup_zset, shared_s2_K1.
Qed.

Lemma shared_hit k : k ∈ hit self T3 K1 [i] s2 ↔ k = i.
Proof.
  rewrite elem_of_hit.
  rewrite (single_unexpired self T3 s2 K1 i T1 _ shared_s2_K1); [| lia | unfold expired; cbn; lia].
  rewrite list_elem_of_singleton. split; [tauto|]. intros ->. split; [done|].
  rewrite lookup_singleton_eq. eauto.
Qed.

Lemma shared_s3_K2 :
  s3 !! K2 = Some (Entry (RZSet {[i := T2]}) (Some (T2 + ttl_seconds self))).
Proof.
  rewrite shared_s3, lookup_removed_ne by done.
  rewrite decide_False; [apply shared_s2_K2|]. by rewrite shared_hit.
Qed.

Lemma shared_s3_payload : s3 !! i = None.
Proof.
  rewrite shared_s3, lookup_removed_ne by done.
  rewrite decide_True; [done|]. by rewrite shared_hit.
Qed.

Lemma shared_read_s2 now n :
  T3 ≤ now → now < T1 + ttl_seconds self → 1 ≤ n →
  has_message_for_key self now K2 s2 = (Return true, s2)
  ∧ message_count_for_key self now K2 s2 = (Return 1, s2)
  ∧ get_messages_for_key self now K2 n s2 = (Return [msg], s2).
Proof.
  intros Hlo Hhi Hn.
  assert (now ≤ T2 + ttl_seconds self) as Hd by lia.
  assert (¬ expired self now (i, T2)) as He by (unfold expired; cbn; lia).
  split; [|split].
  - exact (single_has self now s2 K2 i T2 _ shared_s2_K2 Hd He).
  - exact (single_count self now s2 K2 i T2 _ shared_s2_K2 Hd He).
  - rewrite (single_get self now s2 K2 i T2 _ shared_s2_K2 Hd He n Hn). cbn.
    by rewrite (string_at_lookup _ _ _ _ _ shared_s2_payload Hd).
Qed.

Lemma shared_read_s3 now n :
  T3 ≤ now → now < T1 + ttl_seconds self → 1 ≤ n →
  has_message_for_key self now K2 s3 = (Return true, s3)
  ∧ message_count_for_key self now K2 s3 = (Return 1, s3)
  ∧ get_messages_for_key self now K2 n s3 = (Return [], s3)
  ∧ inspect_all_messages_for_key self now K2 s3 = (Return [None], s3).
Proof.
  intros Hlo Hhi Hn.
  assert (now ≤ T2 + ttl_seconds self) as Hd by lia.
  assert (¬ expired self now (i, T2)) as He by (unfold expired; cbn; lia).
  split; [|split; [|split]].
  - exact (single_has self now s3 K2 i T2 _ shared_s3_K2 Hd He).
  - exact (single_count self now s3 K2 i T2 _ shared_s3_K2 Hd He).
  - rewrite (single_get self now s3 K2 i T2 _ shared_s3_K2 Hd He n Hn). cbn.
    by rewrite (string_at_missing _ _ _ shared_s3_payload).
  - rewrite (single_inspect_all self now s3 K2 i T2 _ shared_s3_K2 Hd He).
    by rewrite (string_at_missing _ _ _ shared_s3_payload).
Qed.

End shared_payload.

(** C1, where the code departs from it.  The same payload is enqueued for
    [K1] and for [K2], and [K1] acknowledges it, naming the identifier as
    bytes, the way [MessagesReceived.handle] passes it.  Before the removal
    [get_messages_for_key] returns the message to [K2]; after it, it returns
    nothing, though [has_message_for_key] and [message_count_for_key] still
    report one message for [K2]: the payload is filed under the identifier
    alone, so striking it for [K1] takes it from [K2] too. *)
Theorem remove_for_one_key_empties_other `{Digest} (self : t) (K1 K2 : string)
    (msg : bytes) (T1 T2 T3 now n : Z) :
  let i := message_id_for_outbound (Bytes msg) in
  let s2 := after (add_message self T2 K2 msg) (after (add_message self T1 K1 msg) ∅) in
  let s3 := after (remove_messages_for_key self T3 K1 [i]) s2 in
  0 < ttl_seconds self →
  K1 ≠ K2 → K1 ≠ i → K2 ≠ i →
  T1 ≤ T2 → T2 ≤ T3 → T3 ≤ now → now < T1 + ttl_seconds self →
  1 ≤ n →
  (get_messages_for_key self now K2 n s2 = (Return [msg], s2)
   ∧ get_messages_for_key self now K2 n s3 = (Return [], s3))
  ∧ (has_message_for_key self now K2 s2 = (Return true, s2)
     ∧ has_message_for_key self now K2 s3 = (Return true, s3))
  ∧ (message_count_for_key self now K2 s2 = (Return 1, s2)
     ∧ message_count_for_key self now K2 s3 = (Return 1, s3)).
Proof.
  intros i s2 s3 Httl HK HK1 HK2 HT12 HT23 HT3 Hnow Hn.
  destruct (shared_read_s2 self K1 K2 msg T1 T2 T3 Httl HK HK2 HT12 now n)
    as (? & ? & ?); [lia..|].
  destruct (shared_read_s3 self K1 K2 msg T1 T2 T3 Httl HK HK1 HK2 HT12 ltac:(lia) now n)
    as (? & ? & ? & _); [lia..|].
  done.
Qed.

(** C2, where the code departs from it.  In a store whose index for [K2]
    holds an identifier without payload, the bounded fetch passes the
    identifier over, but the full fetch returns a [None] entry in its
    place. *)
Theorem inspect_all_returns_placeholder `{Digest} (self : t) (K1 K2 : string)
    (msg : bytes) (T1 T2 T3 now n : Z) :
  let i := message_id_for_outbound (Bytes msg) in
  let s2 := after (add_message self T2 K2 msg) (after (add_message self T1 K1 msg) ∅) in
  let s3 := after (remove_messages_for_key self T3 K1 [i]) s2 in
  0 < ttl_seconds self →
  K1 ≠ K2 → K1 ≠ i → K2 ≠ i →
  T1 ≤ T2 → T2 ≤ T3 → T3 ≤ now → now < T1 + ttl_seconds self →
  1 ≤ n →
  get_messages_for_key self now K2 n s3 = (Return [], s3)
  ∧ inspect_all_messages_for_key self now K2 s3 = (Return [None], s3).
Proof.
  intros i s2 s3 Httl HK HK1 HK2 HT12 HT23 HT3 Hnow Hn.
  destruct (shared_read_s3 self K1 K2 msg T1 T2 T3 Httl HK HK1 HK2 HT12 ltac:(lia) now n)
    as (_ & _ & ? & ?); [lia..|].
  done.
Qed.

(** C10. There is a store, reached by two [add_message] calls and one
    [remove_messages_for_key] call, in which [has_message_for_key] answers
    true for [K2] while [get_messages_for_key] returns the empty list for
    every positive limit; a DeliveryRequest of [K2] is then answered with a
    Delivery message without attachments, not with a Status message. *)
Theorem has_message_but_empty_delivery `{Digest} (self : t) (K1 K2 : string)
    (msg : bytes) (T1 T2 T3 t_has t_get : Z)
    (request : DeliveryRequest.t) (replies : list reply) :
  let i := message_id_for_outbound (Bytes msg) in
  let s2 := after (add_message self T2 K2 msg) (after (add_message self T1 K1 msg) ∅) in
  let s3 := after (remove_messages_for_key self T3 K1 [i]) s2 in
  0 < ttl_seconds self →
  K1 ≠ K2 → K1 ≠ i → K2 ≠ i →
  T1 ≤ T2 → T2 ≤ T3 → T3 ≤ t_has → t_has ≤ t_get → t_get < T1 + ttl_seconds self →
  lacks_return_route_all (DeliveryRequest.base request) = false →
  1 ≤ DeliveryRequest.limit request →
  has_message_for_key self t_has K2 s3 = (Return true, s3)
  ∧ (∀ n, 1 ≤ n → get_messages_for_key self t_get K2 n s3 = (Return [], s3))
  ∧ DeliveryRequest.handle request {| queue := self; sender_verkey := K2 |} t_has t_get
      {| redis := s3; sent := replies |} =
    (Return (),
     {| redis := s3;
        sent := replies ++
          [DeliveryReply
             {| Delivery.thread := Some (thread_id (DeliveryRequest.base request));
                Delivery.recipient_key := None;
                Delivery.message_attachments := [] |}] |}).
Proof.
  intros i s2 s3 Httl HK HK1 HK2 HT12 HT23 Hhas Hget Hwin Hroute Hlimit.
  pose proof (shared_read_s3 self K1 K2 msg T1 T2 T3 Httl HK HK1 HK2 HT12 ltac:(lia))
    as Hread. fold i s2 s3 in Hread.
  destruct (Hread t_has 1) as (Hh & _); [lia..|].
  split; [done|]. split.
  { intros n Hn. destruct (Hread t_get n) as (_ & _ & ? & _); [lia..|done]. }
  destruct (Hread t_get (DeliveryRequest.limit request)) as (_ & _ & Hg & _); [lia..|].
  unfold DeliveryRequest.handle. rewrite Hroute. cbn [queue sender_verkey]. unfold bind.
  rewrite (on_queue_run _ _ _ _ _ Hh).
  by rewrite (on_queue_run _ _ _ _ _ Hg).
Qed.


Lemma enqueued_present i sc now : enqueued {[i := sc]} i now = {[i := sc]}.
Proof. unfold enqueued. by rewrite lookup_singleton_eq. Qed.

(** * Worked instances *)

Lemma no_string_one_message : no_string one_message_store "K".
Proof. intros v d. vm_compute. discriminate. Qed.

Lemma return_route_enforced_witness :
  ∃ what,
    DeliveryRequest.handle (H := tagged_digest)
      {| DeliveryRequest.base := unrouted;
         DeliveryRequest.limit := 1;
         DeliveryRequest.recipient_key := None |}
      (context_of "K") 0 0 {| redis := one_message_store; sent := [] |} =
    (Raise (HandlerException what), {| redis := one_message_store; sent := [] |}).
Proof.
  apply (proj1 (return_route_enforced (H := tagged_digest) _
                  {| MessagesReceived.base := unrouted;
                     MessagesReceived.message_id_list := ∅ |} _ 0 0 0 _)).
  intros d Hd. discriminate Hd.
Defined.

Lemma messages_received_status_witness :
  ∃ s n,
    MessagesReceived.handle
      {| MessagesReceived.base := routed;
         MessagesReceived.message_id_list := {["id:m"%string]} |}
      (context_of "K") 1 2 3 {| redis := one_message_store; sent := [] |} =
    (Return (),
     {| redis := s;
        sent := [StatusReply {| Status.thread := Some "thread-1"%string;
                                Status.recipient_key := None;
                                Status.message_count := n |}] |}).
Proof.
  eexists _, _.
  apply (messages_received_status
           {| MessagesReceived.base := routed;
              MessagesReceived.message_id_list := {["id:m"%string]} |}
           (context_of "K") 1 2 3 {| redis := one_message_store; sent := [] |}).
  - reflexivity.
  - exact no_string_one_message.
Defined.

Lemma get_messages_oldest_first_witness :
  ∃ s' msgs,
    get_messages_for_key ten_seconds 1 "K" 1 one_message_store = (Return msgs, s')
    ∧ Z.of_nat (length msgs) ≤ 1.
Proof.
  destruct (get_messages_oldest_first ten_seconds 1 "K" 1 one_message_store)
    as (s' & msgs & Hget & _ & _ & _ & _ & Hlen & _).
  - lia.
  - exact no_string_one_message.
  - exists s', msgs. split; [exact Hget | exact Hlen].
Defined.

(** C3, as stated, fails for the limit 0: the index range then ends at
    position -1, the last member, and the whole mailbox is returned. *)
Lemma get_messages_limit_zero_counterexample :
  ¬ (∀ (self : t) (now : Z) (key : string) (N : Z) (s : db) msgs s',
       no_string s key →
       get_messages_for_key self now key N s = (Return msgs, s') →
       Z.of_nat (length msgs) ≤ N).
Proof.
  intros Hbound.
  assert (get_messages_for_key ten_seconds 1 "K" 0 one_message_store
          = (Return ["m"%string], one_message_store)) as Hget
    by (vm_compute; reflexivity).
  specialize (Hbound _ _ _ _ _ _ _ no_string_one_message Hget). cbn in Hbound. lia.
Qed.

Lemma expired_message_not_reported_witness :
  ∃ s1 s',
    add_message (H := tagged_digest) ten_seconds 0 "K" "m" ∅ = (Return (), s1)
    ∧ has_message_for_key ten_seconds 10 "K" s1 = (Return false, s').
Proof.
  destruct (expired_message_not_reported (H := tagged_digest) ten_seconds 0 10 "K" "m" ∅)
    as (s1 & Hadd & Hreads).
  - reflexivity.
  - lia.
  - vm_compute. discriminate.
  - discriminate.
  - intros v d. rewrite lookup_empty. discriminate.
  - intros sc Hsc. vm_compute in Hsc. discriminate Hsc.
  - destruct (Hreads s1 (or_introl eq_refl)) as (s' & z & _ & _ & _ & _ & Honly).
    destruct (Honly eq_refl) as (Hhas & _).
    exists s1, s'. split; [exact Hadd | exact Hhas].
Defined.

Lemma remove_for_one_key_empties_other_witness :
  ∃ s2 s3,
    get_messages_for_key ten_seconds 3 "K2" 5 s2 = (Return ["m"%string], s2)
    ∧ get_messages_for_key ten_seconds 3 "K2" 5 s3 = (Return [], s3).
Proof.
  eexists _, _.
  apply (remove_for_one_key_empties_other (H := tagged_digest)
           ten_seconds "K1" "K2" "m" 0 1 2 3 5);
    first [reflexivity | discriminate | lia | (vm_compute; discriminate)].
Defined.

Lemma inspect_all_returns_placeholder_witness :
  ∃ s3,
    get_messages_for_key ten_seconds 3 "K2" 5 s3 = (Return [], s3)
    ∧ inspect_all_messages_for_key ten_seconds 3 "K2" s3 = (Return [None], s3).
Proof.
  eexists.
  apply (inspect_all_returns_placeholder (H := tagged_digest)
           ten_seconds "K1" "K2" "m" 0 1 2 3 5);
    first [reflexivity | discriminate | lia | (vm_compute; discriminate)].
Defined.

Lemma has_message_but_empty_delivery_witness :
  ∃ s3,
    has_message_for_key ten_seconds 3 "K2" s3 = (Return true, s3)
    ∧ get_messages_for_key ten_seconds 4 "K2" 5 s3 = (Return [], s3).
Proof.
  destruct (has_message_but_empty_delivery (H := tagged_digest)
              ten_seconds "K1" "K2" "m" 0 1 2 3 4
              {| DeliveryRequest.base := routed;
                 DeliveryRequest.limit := 5;
                 DeliveryRequest.recipient_key := None |} [])
    as (Hhas & Hget & _);
    [first [reflexivity | discriminate | lia | (vm_compute; discriminate)]..|].
  eexists. split; [exact Hhas|]. apply Hget. lia.
Defined.

(** The same stores, evaluated: the reply to a DeliveryRequest of ["K2"]
    after ["K1"] has acknowledged the shared payload. *)
Example delivery_without_attachments :
  let s3 := after (remove_messages_for_key ten_seconds 2 "K1" ["id:m"%string])
              (after (add_message (H := tagged_digest) ten_seconds 1 "K2" "m")
                 (after (add_message (H := tagged_digest) ten_seconds 0 "K1" "m") ∅)) in
  sent (DeliveryRequest.handle (H := tagged_digest)
          {| DeliveryRequest.base := routed;
             DeliveryRequest.limit := 5;
             DeliveryRequest.recipient_key := None |}
          (context_of "K2") 3 4 {| redis := s3; sent := [] |}).2
  = [DeliveryReply {| Delivery.thread := Some "thread-1"%string;
                      Delivery.recipient_key := None;
                      Delivery.message_attachments := [] |}].
Proof. vm_compute. reflexivity. Qed.

(** * Further properties of the queue *)

(** X1. The reads of one key at one clock reading agree: they leave the
    same store, [has_message_for_key] is true exactly when
    [message_count_for_key] is at least 1, the count is the length of what
    [inspect_all_messages_for_key] returns, and [get_messages_for_key] with
    a limit [N ≥ 1] returns the payloads present among its first [N]
    entries. *)
Theorem reads_agree (self : t) (now : Z) (key : string) (s : db) :
  no_string s key →
  ∃ (s' : db) (b : bool) (n : Z) (all : list (option bytes)),
    has_message_for_key self now key s = (Return b, s')
    ∧ message_count_for_key self now key s = (Return n, s')
    ∧ inspect_all_messages_for_key self now key s = (Return all, s')
    ∧ (b = true ↔ 1 ≤ n)
    ∧ n = Z.of_nat (length all)
    ∧ ∀ N, 1 ≤ N →
        get_messages_for_key self now key N s =
          (Return (omap id (take (Z.to_nat N) all)), s').
Proof.
  intros Hk. eexists _, _, _, _.
  split; [by apply has_message_run|].
  split; [by apply message_count_run|].
  split; [by apply inspect_all_run|].
  set (z := unexpired self now (index now s key)).
  split; [|split].
  - rewrite bool_decide_eq_true.
    rewrite <- (map_size_non_empty_iff z). lia.
  - by rewrite !length_fmap, length_ordered.
  - intros N HN. rewrite (get_messages_run _ _ _ _ _ Hk), slice_limit by done.
    by rewrite fmap_take.
Qed.

Lemma reads_agree_witness :
  ∃ s' b n all,
    has_message_for_key ten_seconds 1 "K" one_message_store = (Return b, s')
    ∧ message_count_for_key ten_seconds 1 "K" one_message_store = (Return n, s')
    ∧ inspect_all_messages_for_key ten_seconds 1 "K" one_message_store = (Return all, s')
    ∧ (b = true ↔ 1 ≤ n).
Proof.
  destruct (reads_agree ten_seconds 1 "K" one_message_store no_string_one_message)
    as (s' & b & n & all & Hh & Hc & Hi & Hb & _).
  exists s', b, n, all.
  split; [exact Hh|]. split; [exact Hc|]. split; [exact Hi | exact Hb].
Defined.

(** X2. Reads consume nothing.  On the store a read leaves, each read
    made again at the same clock reading returns what it returned on the
    store before, and leaves that store as it is. *)
Theorem reads_repeatable (self : t) (now : Z) (key : string) (N : Z) (s : db) :
  no_string s key →
  let s' := after (get_messages_for_key self now key N) s in
  after (has_message_for_key self now key) s = s'
  ∧ has_message_for_key self now key s' = ((has_message_for_key self now key s).1, s')
  ∧ message_count_for_key self now key s' = ((message_count_for_key self now key s).1, s')
  ∧ get_messages_for_key self now key N s' = ((get_messages_for_key self now key N s).1, s')
  ∧ inspect_all_messages_for_key self now key s' =
      ((inspect_all_messages_for_key self now key s).1, s').
Proof.
  intros Hk s'.
  assert (s' = swept self now key s) as ->
    by (unfold s', after; by rewrite get_messages_run).
  pose proof (no_string_swept self now key key s Hk) as Hk'.
  unfold after.
  rewrite !(has_message_run _ _ _ _ Hk), !(message_count_run _ _ _ _ Hk),
    !(get_messages_run _ _ _ _ _ Hk), !(inspect_all_run _ _ _ _ Hk).
  rewrite (has_message_run _ _ _ _ Hk'), (message_count_run _ _ _ _ Hk'),
    (get_messages_run _ _ _ _ _ Hk'), (inspect_all_run _ _ _ _ Hk').
  by rewrite swept_idemp, index_swept, unexpired_idemp.
Qed.

Lemma reads_repeatable_witness :
  get_messages_for_key ten_seconds 1 "K" 5
    (after (get_messages_for_key ten_seconds 1 "K" 5) one_message_store) =
  ((get_messages_for_key ten_seconds 1 "K" 5 one_message_store).1,
   after (get_messages_for_key ten_seconds 1 "K" 5) one_message_store).
Proof.
  exact (proj1 (proj2 (proj2 (proj2
    (reads_repeatable ten_seconds 1 "K" 5 one_message_store no_string_one_message))))).
Defined.

Lemma index_added_key `{Digest} self T now key msg s :
  key ≠ message_id_for_outbound (Bytes msg) →
  now ≤ T + ttl_seconds self →
  index now (added self T key msg s) key =
    enqueued (index T s key) (message_id_for_outbound (Bytes msg)) T.
Proof.
  intros Hne Hnow.
  rewrite (index_lookup_zset _ _ _ _ _ (lookup_added_key self T key msg s Hne)).
  unfold alive. cbn. by rewrite bool_decide_eq_true_2.
Qed.

Lemma no_string_added `{Digest} self T key msg s :
  key ≠ message_id_for_outbound (Bytes msg) →
  no_string (added self T key msg s) key.
Proof. intros Hne. eapply no_string_lookup_zset. by apply lookup_added_key. Qed.

Lemma string_at_added `{Digest} self T now key msg s :
  now ≤ T + ttl_seconds self →
  string_at now (added self T key msg s) (message_id_for_outbound (Bytes msg)) = Some msg.
Proof. intros Hnow. eapply string_at_lookup; [apply lookup_added_ident|done]. Qed.

Lemma unexpired_insert_fresh self now z i sc :
  z !! i = None →
  ¬ expired self now (i, sc) →
  unexpired self now (<[i := sc]> z) = <[i := sc]> (unexpired self now z).
Proof. intros Hz He. unfold unexpired. by rewrite map_filter_insert_True. Qed.

(** X3. A message just enqueued can be fetched.  After [add_message] of a
    payload whose identifier is not yet in the index, every read made
    within the retention time finds it: [has_message_for_key] is true, the
    count is one more than that of the other unexpired entries, and
    [inspect_all_messages_for_key] lists the payload. *)
Theorem add_then_fetch `{Digest} (self : t) (T now : Z) (key : string)
    (msg : bytes) (s : db) :
  let i := message_id_for_outbound (Bytes msg) in
  let s1 := after (add_message self T key msg) s in
  0 < ttl_seconds self →
  key ≠ i →
  no_string s key →
  index T s key !! i = None →
  T ≤ now →
  now < T + ttl_seconds self →
  ∃ s' all,
    has_message_for_key self now key s1 = (Return true, s')
    ∧ message_count_for_key self now key s1 =
        (Return (1 + Z.of_nat (size (unexpired self now (index T s key)))), s')
    ∧ inspect_all_messages_for_key self now key s1 = (Return all, s')
    ∧ Some msg ∈ all.
Proof.
  intros i s1 Httl Hne Hk Hfresh HT Hnow.
  assert (s1 = added self T key msg s) as ->
    by (unfold s1, after; by rewrite add_message_run).
  pose proof (no_string_added self T key msg s Hne) as Hk1.
  assert (unexpired self now (index now (added self T key msg s) key)
          = <[i := T]> (unexpired self now (index T s key))) as Hz.
  { rewrite (index_added_key self T now key msg s Hne) by lia. fold i. unfold enqueued. rewrite Hfresh.
    apply unexpired_insert_fresh; [done|]. unfold expired. cbn. lia. }
  eexists _, _.
  split; [|split; [|split]].
  - rewrite (has_message_run _ _ _ _ Hk1), Hz.
    rewrite bool_decide_eq_true_2; [done|]. apply insert_non_empty.
  - rewrite (message_count_run _ _ _ _ Hk1), Hz.
    rewrite map_size_insert_None.
    + do 2 f_equal. lia.
    + apply map_lookup_filter_None. by left.
  - by apply inspect_all_run.
  - rewrite Hz. apply list_elem_of_fmap. exists i. split.
    + symmetry.
      rewrite (string_at_ext now _ (added self T key msg s) i)
        by (by apply lookup_swept_ne).
      apply string_at_added. lia.
    + apply elem_of_ordered_fst. rewrite lookup_insert_eq. eauto.
Qed.

Lemma add_then_fetch_witness :
  ∃ s' all,
    has_message_for_key ten_seconds 3 "K"
      (after (add_message (H := tagged_digest) ten_seconds 2 "K" "n") one_message_store)
      = (Return true, s')
    ∧ inspect_all_messages_for_key ten_seconds 3 "K"
        (after (add_message (H := tagged_digest) ten_seconds 2 "K" "n") one_message_store)
      = (Return all, s')
    ∧ Some "n"%string ∈ all.
Proof.
  destruct (add_then_fetch (H := tagged_digest) ten_seconds 2 3 "K" "n" one_message_store)
    as (s' & all & Hh & _ & Hi & Hin).
  - reflexivity.
  - discriminate.
  - exact no_string_one_message.
  - vm_compute. reflexivity.
  - lia.
  - reflexivity.
  - exists s', all. split; [exact Hh|]. split; [exact Hi | exact Hin].
Defined.

(** X4. Enqueueing a payload again does not renew it.  When the index
    still holds the identifier with a score that has run out at the time of
    a read, the read strikes it, however recently the payload was added
    again: the identifier is in none of the entries the reads answer from,
    and a mailbox holding nothing else reads as empty. *)
Theorem readd_does_not_renew `{Digest} (self : t) (T now : Z) (key : string)
    (msg : bytes) (s : db) (sc : Z) :
  let i := message_id_for_outbound (Bytes msg) in
  let s1 := after (add_message self T key msg) s in
  0 < ttl_seconds self →
  key ≠ i →
  no_string s key →
  index T s key !! i = Some sc →
  0 ≤ sc →
  sc + ttl_seconds self ≤ now →
  T ≤ now →
  now < T + ttl_seconds self →
  ∃ s',
    string_at now s1 i = Some msg
    ∧ message_count_for_key self now key s1 =
        (Return (Z.of_nat (size (unexpired self now (index T s key)))), s')
    ∧ unexpired self now (index T s key) !! i = None
    ∧ (index T s key = {[i := sc]} →
       has_message_for_key self now key s1 = (Return false, s')
       ∧ ∀ N, get_messages_for_key self now key N s1 = (Return [], s')).
Proof.
  intros i s1 Httl Hne Hk Hold Hsc Hexp HT Hnow.
  assert (s1 = added self T key msg s) as ->
    by (unfold s1, after; by rewrite add_message_run).
  pose proof (no_string_added self T key msg s Hne) as Hk1.
  assert (index now (added self T key msg s) key = index T s key) as Hz.
  { rewrite (index_added_key self T now key msg s Hne) by lia. fold i. unfold enqueued. by rewrite Hold. }
  assert (expired self now (i, sc)) as He by (unfold expired; cbn; lia).
  eexists. split; [apply string_at_added; lia|].
  split; [by rewrite (message_count_run _ _ _ _ Hk1), Hz|].
  split.
  { apply unexpired_lookup_expired. intros sc' Hsc'. congruence. }
  intros Honly.
  assert (unexpired self now (index now (added self T key msg s) key) = ∅) as Hempty.
  { rewrite Hz, Honly. by apply unexpired_singleton_expired. }
  split.
  - rewrite (has_message_run _ _ _ _ Hk1), Hempty.
    rewrite bool_decide_eq_false_2; [done|]. intros Hn. by apply Hn.
  - intros N. rewrite (get_messages_run _ _ _ _ _ Hk1), Hempty.
    by rewrite ordered_empty, fmap_nil, slice_nil.
Qed.

Lemma no_string_two_message : no_string two_message_store "K".
Proof. intros v d. vm_compute. discriminate. Qed.

Lemma readd_does_not_renew_witness :
  ∃ s',
    message_count_for_key ten_seconds 16 "K"
      (after (add_message (H := tagged_digest) ten_seconds 15 "K" "m") two_message_store)
    = (Return (Z.of_nat (size (unexpired ten_seconds 16 (index 15 two_message_store "K")))),
       s')
    ∧ unexpired ten_seconds 16 (index 15 two_message_store "K") !! "id:m"%string = None.
Proof.
  destruct (readd_does_not_renew (H := tagged_digest) ten_seconds 15 16 "K" "m"
              two_message_store 0) as (s' & _ & Hc & Hi & _).
  - reflexivity.
  - discriminate.
  - exact no_string_two_message.
  - vm_compute. reflexivity.
  - lia.
  - vm_compute. discriminate.
  - lia.
  - reflexivity.
  - exists s'. split; [exact Hc | exact Hi].
Defined.

(** What [has_message_for_key] and [message_count_for_key] return depends
    on the entry of the key alone. *)
Lemma has_count_ext self now key (s s' : db) :
  no_string s key →
  s' !! key = s !! key →
  (has_message_for_key self now key s').1 = (has_message_for_key self now key s).1
  ∧ (message_count_for_key self now key s').1 = (message_count_for_key self now key s).1.
Proof.
  intros Hk Heq.
  assert (no_string s' key) as Hk' by (intros v d; rewrite Heq; apply Hk).
  rewrite (has_message_run _ _ _ _ Hk), (has_message_run _ _ _ _ Hk').
  rewrite (message_count_run _ _ _ _ Hk), (message_count_run _ _ _ _ Hk').
  by rewrite (index_ext now s' s key Heq).
Qed.

Lemma add_message_other `{Digest} self T key msg (s : db) k :
  k ≠ key →
  k ≠ message_id_for_outbound (Bytes msg) →
  after (add_message self T key msg) s !! k = s !! k.
Proof.
  intros Hk Hi. unfold after, add_message, bind, zadd_nx, expire, setex, ret.
  destruct (lookup_zset T s key) as [z|e]; [|done].
  destruct (z !! message_id_for_outbound (Bytes msg)).
  - destruct (live T s key) as [e|]; repeat case_bool_decide; cbn;
      rewrite ?lookup_insert_ne, ?lookup_delete_ne, ?lookup_insert_ne by done;
      try done; try lia.
  - rewrite live_insert_eq by apply alive_live_deadline.
    repeat case_bool_decide; cbn;
      rewrite ?lookup_insert_ne, ?lookup_delete_ne, ?lookup_insert_ne by done;
      try done; try lia.
Qed.

(** X5. [add_message] under one key leaves the mailbox index of every
    other key alone: for a key that is neither the recipient key nor the
    identifier of the payload, [has_message_for_key] and
    [message_count_for_key] return what they returned before, whether or
    not the call raised. *)
Theorem add_leaves_other_keys `{Digest} (self : t) (T now : Z) (K1 K2 : string)
    (msg : bytes) (s : db) :
  K2 ≠ K1 →
  K2 ≠ message_id_for_outbound (Bytes msg) →
  no_string s K2 →
  let s1 := after (add_message self T K1 msg) s in
  (has_message_for_key self now K2 s1).1 = (has_message_for_key self now K2 s).1
  ∧ (message_count_for_key self now K2 s1).1 = (message_count_for_key self now K2 s).1.
Proof.
  intros HK Hi Hk s1. apply has_count_ext; [done|]. by apply add_message_other.
Qed.

Lemma add_leaves_other_keys_witness :
  (message_count_for_key ten_seconds 3 "K"
     (after (add_message (H := tagged_digest) ten_seconds 2 "L" "n") one_message_store)).1
  = (message_count_for_key ten_seconds 3 "K" one_message_store).1.
Proof.
  apply (add_leaves_other_keys (H := tagged_digest) ten_seconds 2 3 "L" "K" "n"
           one_message_store).
  - discriminate.
  - discriminate.
  - exact no_string_one_message.
Defined.

Lemma remove_messages_string_key self now key msg_idents (s : db) v d :
  s !! key = Some (Entry (RString v) d) →
  after (remove_messages_for_key self now key msg_idents) s = s.
Proof.
  intros Hs. unfold after, remove_messages_for_key, expire_helper, bind,
    zrange_byscore, zrange, lookup_zset, live. rewrite Hs.
  destruct (alive now _); [done|].
  rewrite ordered_empty. cbn. rewrite Hs.
  destruct (alive now _); [done|].
  by rewrite ordered_empty.
Qed.

Lemma remove_messages_other self now key msg_idents (s : db) k :
  k ≠ key →
  k ∉ msg_idents →
  after (remove_messages_for_key self now key msg_idents) s !! k = s !! k.
Proof.
  intros Hk Hi.
  destruct (s !! key) as [[[v|z] d]|] eqn:Hs.
  - by rewrite (remove_messages_string_key _ _ _ _ _ _ _ Hs).
  - unfold after. rewrite remove_messages_run by by eapply no_string_lookup_zset.
    cbn. rewrite lookup_removed_ne by done.
    rewrite decide_False; [done|]. rewrite elem_of_hit. tauto.
  - unfold after. rewrite remove_messages_run by (intros v d; by rewrite Hs).
    cbn. rewrite lookup_removed_ne by done.
    rewrite decide_False; [done|]. rewrite elem_of_hit. tauto.
Qed.

(** X6. [remove_messages_for_key] under one key leaves the mailbox index
    of every other key alone: for a key that is neither the recipient key
    nor one of the identifiers named, [has_message_for_key] and
    [message_count_for_key] return what they returned before. *)
Theorem remove_leaves_other_keys (self : t) (T now : Z) (K1 K2 : string)
    (msg_idents : list string) (s : db) :
  K2 ≠ K1 →
  K2 ∉ msg_idents →
  no_string s K2 →
  let s1 := after (remove_messages_for_key self T K1 msg_idents) s in
  (has_message_for_key self now K2 s1).1 = (has_message_for_key self now K2 s).1
  ∧ (message_count_for_key self now K2 s1).1 = (message_count_for_key self now K2 s).1.
Proof.
  intros HK Hi Hk s1. apply has_count_ext; [done|]. by apply remove_messages_other.
Qed.

Lemma remove_leaves_other_keys_witness :
  (message_count_for_key ten_seconds 3 "K"
     (after (remove_messages_for_key ten_seconds 2 "L" ["id:m"%string]) one_message_store)).1
  = (message_count_for_key ten_seconds 3 "K" one_message_store).1.
Proof.
  apply (remove_leaves_other_keys ten_seconds 2 3 "L" "K" ["id:m"%string]
           one_message_store).
  - discriminate.
  - intros Hin. apply list_elem_of_singleton in Hin. discriminate Hin.
  - exact no_string_one_message.
Defined.

Lemma slice_nonpositive {A} (l : list A) (count : Z) :
  count ≤ 0 →
  slice l 0 (count - 1) = take (Z.to_nat (Z.of_nat (length l) + count)) l.
Proof.
  intros Hc. unfold slice.
  repeat case_bool_decide; try lia; rewrite ?drop_0.
  all: try (replace (Z.to_nat (Z.of_nat (length l) + count)) with 0%nat by lia;
            by rewrite take_0).
  all: try (f_equal; lia).
Qed.

(** X7. A limit of 0 or less does not bound the fetch from above: the
    index range then ends [-limit] entries before the last one, so
    [get_messages_for_key] returns the payloads present among all but the
    last [-limit] entries, and with the limit 0, the default, among all the
    entries [inspect_all_messages_for_key] lists. *)
Theorem get_messages_nonpositive_limit (self : t) (now : Z) (key : string)
    (N : Z) (s : db) :
  no_string s key →
  N ≤ 0 →
  ∃ (s' : db) (all : list (option bytes)),
    inspect_all_messages_for_key self now key s = (Return all, s')
    ∧ get_messages_for_key self now key N s =
        (Return (omap id (take (Z.to_nat (Z.of_nat (length all) + N)) all)), s')
    ∧ get_messages_for_key self now key 0 s = (Return (omap id all), s').
Proof.
  intros Hk HN. eexists _, _.
  split; [by apply inspect_all_run|].
  split.
  - rewrite (get_messages_run _ _ _ _ _ Hk), slice_nonpositive by done.
    by rewrite fmap_take, !length_fmap.
  - rewrite (get_messages_run _ _ _ _ _ Hk). change (0 - 1) with (-1).
    by rewrite slice_all.
Qed.

Lemma get_messages_nonpositive_limit_witness :
  ∃ s' all,
    inspect_all_messages_for_key ten_seconds 10 "K" two_message_store = (Return all, s')
    ∧ get_messages_for_key ten_seconds 10 "K" (-1) two_message_store =
        (Return (omap id (take (Z.to_nat (Z.of_nat (length all) + -1)) all)), s').
Proof.
  destruct (get_messages_nonpositive_limit ten_seconds 10 "K" (-1) two_message_store)
    as (s' & all & Hi & Hg & _).
  - exact no_string_two_message.
  - lia.
  - exists s', all. split; [exact Hi | exact Hg].
Defined.

(** X8. A recipient key that holds a payload, a live string, cannot be
    used as a mailbox: every method raises the type error of Redis on its
    first sorted-set command and leaves the store as it was. *)
Theorem string_key_raises `{Digest} (self : t) (now : Z) (key : string) (s : db)
    (v : bytes) (d : option Z) (msg : bytes) (N : Z) (msg_idents : list string) :
  live now s key = Some (Entry (RString v) d) →
  add_message self now key msg s = (Raise wrongtype, s)
  ∧ has_message_for_key self now key s = (Raise wrongtype, s)
  ∧ message_count_for_key self now key s = (Raise wrongtype, s)
  ∧ get_messages_for_key self now key N s = (Raise wrongtype, s)
  ∧ inspect_all_messages_for_key self now key s = (Raise wrongtype, s)
  ∧ remove_messages_for_key self now key msg_idents s = (Raise wrongtype, s).
Proof.
  intros Hlive.
  assert (lookup_zset now s key = Raise wrongtype) as Hz
    by (unfold lookup_zset; by rewrite Hlive).
  assert (expire_helper self now key s = (Raise wrongtype, s)) as He
    by (unfold expire_helper, bind, zrange_byscore; by rewrite Hz).
  repeat split.
  - unfold add_message, bind, zadd_nx. by rewrite Hz.
  - unfold has_message_for_key, bind. by rewrite He.
  - unfold message_count_for_key, bind. by rewrite He.
  - unfold get_messages_for_key, bind. by rewrite He.
  - unfold inspect_all_messages_for_key, bind. by rewrite He.
  - unfold remove_messages_for_key, bind. by rewrite He.
Qed.

Lemma string_key_raises_witness :
  has_message_for_key ten_seconds 1 "id:m" one_message_store
  = (Raise wrongtype, one_message_store).
Proof.
  apply (string_key_raises (H := tagged_digest) ten_seconds 1 "id:m" one_message_store
           "m" (Some 10) "m" 1 []).
  vm_compute. reflexivity.
Defined.

(** X9. Without new messages a mailbox does not grow: on one store,
    the count at a later clock reading is at most the count at an earlier
    one. *)
Theorem count_decreases_with_time (self : t) (now now' : Z) (key : string) (s : db) :
  no_string s key →
  now ≤ now' →
  ∃ n n' s1 s1',
    message_count_for_key self now key s = (Return n, s1)
    ∧ message_count_for_key self now' key s = (Return n', s1')
    ∧ n' ≤ n.
Proof.
  intros Hk Hle. eexists _, _, _, _.
  split; [by apply message_count_run|].
  split; [by apply message_count_run|].
  apply inj_le, map_subseteq_size.
  destruct (index_later now now' s key Hle) as [-> | ->].
  - unfold unexpired. apply map_filter_strong_subseteq_ext.
    intros i sc [He Hi]. split; [|done].
    intros He'. apply He. unfold expired in *. cbn in *. lia.
  - rewrite unexpired_empty. apply map_empty_subseteq.
Qed.

Lemma count_decreases_with_time_witness :
  ∃ n n' s1 s1',
    message_count_for_key ten_seconds 3 "K" two_message_store = (Return n, s1)
    ∧ message_count_for_key ten_seconds 12 "K" two_message_store = (Return n', s1')
    ∧ n' ≤ n.
Proof.
  apply (count_decreases_with_time ten_seconds 3 12 "K" two_message_store).
  - exact no_string_two_message.
  - lia.
Defined.

(** * Further properties of the handlers *)

(** X10. A DeliveryRequest for an empty mailbox is answered with exactly
    one Status message: count 0, the [recipient_key] of the request echoed,
    the thread of the request.  Nothing but the expiry sweep touches the
    store. *)
Theorem delivery_request_empty_mailbox `{Digest} (request : DeliveryRequest.t)
    (context : RequestContext) (t_has t_get : Z) (w : world) :
  let q := queue context in
  let key := sender_verkey context in
  lacks_return_route_all (DeliveryRequest.base request) = false →
  no_string (redis w) key →
  (has_message_for_key q t_has key (redis w)).1 = Return false →
  DeliveryRequest.handle request context t_has t_get w =
    (Return (),
     {| redis := swept q t_has key (redis w);
        sent := sent w ++
          [StatusReply
             {| Status.thread := Some (thread_id (DeliveryRequest.base request));
                Status.recipient_key := DeliveryRequest.recipient_key request;
                Status.message_count := 0 |}] |}).
Proof.
  intros q key Hroute Hk Hhas. destruct w as [s l]. cbn [redis sent] in *.
  unfold DeliveryRequest.handle. rewrite Hroute. fold q key. unfold bind.
  rewrite (has_message_run _ _ _ _ Hk) in Hhas. cbn in Hhas.
  rewrite (on_queue_run _ _ _ _ _ (has_message_run q t_has key _ Hk)).
  injection Hhas as ->. done.
Qed.

Lemma delivery_request_empty_mailbox_witness :
  ∃ s,
    DeliveryRequest.handle (H := tagged_digest)
      {| DeliveryRequest.base := routed;
         DeliveryRequest.limit := 5;
         DeliveryRequest.recipient_key := Some "K"%string |}
      (context_of "L") 1 2 {| redis := one_message_store; sent := [] |} =
    (Return (),
     {| redis := s;
        sent := [StatusReply {| Status.thread := Some "thread-1"%string;
                                Status.recipient_key := Some "K"%string;
                                Status.message_count := 0 |}] |}).
Proof.
  eexists.
  apply (delivery_request_empty_mailbox (H := tagged_digest)
           {| DeliveryRequest.base := routed;
              DeliveryRequest.limit := 5;
              DeliveryRequest.recipient_key := Some "K"%string |}
           (context_of "L") 1 2 {| redis := one_message_store; sent := [] |}).
  - reflexivity.
  - intros v d. vm_compute. discriminate.
  - vm_compute. reflexivity.
Defined.

Lemma string_at_no_string now (s : db) k : no_string s k → string_at now s k = None.
Proof.
  intros Hk. unfold string_at, live. destruct (s !! k) as [[[v|z] d]|] eqn:Hs; [|by destruct (alive _ _)|done].
  by destruct (Hk v d).
Qed.

Lemma elem_of_omap_id {A} (l : list (option A)) (a : A) : a ∈ omap id l ↔ Some a ∈ l.
Proof.
  rewrite list_elem_of_omap. split.
  - by intros [[b|] [Hin [= ->]]].
  - intros Hin. by exists (Some a).
Qed.

(** X11. A DeliveryRequest for a mailbox that is not empty is answered
    with exactly one Delivery message carrying the thread of the request.
    Its attachments are the messages [get_messages_for_key] returns for the
    limit, in that order, each labelled with the identifier computed from
    its own bytes; there are at most [limit] of them, and each is a payload
    the store held, unexpired, under an identifier of the sender's index.
    The handler sweeps the store and removes nothing else. *)
Theorem delivery_request_delivers `{Digest} (request : DeliveryRequest.t)
    (context : RequestContext) (t_has t_get : Z) (w : world) :
  let q := queue context in
  let key := sender_verkey context in
  let s1 := swept q t_has key (redis w) in
  let s2 := swept q t_get key s1 in
  lacks_return_route_all (DeliveryRequest.base request) = false →
  no_string (redis w) key →
  (has_message_for_key q t_has key (redis w)).1 = Return true →
  1 ≤ DeliveryRequest.limit request →
  t_has ≤ t_get →
  ∃ msgs,
    get_messages_for_key q t_get key (DeliveryRequest.limit request) s1 = (Return msgs, s2)
    ∧ Z.of_nat (length msgs) ≤ DeliveryRequest.limit request
    ∧ DeliveryRequest.handle request context t_has t_get w =
        (Return (),
         {| redis := s2;
            sent := sent w ++
              [DeliveryReply
                 {| Delivery.thread := Some (thread_id (DeliveryRequest.base request));
                    Delivery.recipient_key := None;
                    Delivery.message_attachments :=
                      (λ m, {| ident := message_id_for_outbound (Bytes m); data := m |})
                        <$> msgs |}] |})
    ∧ ∀ m, m ∈ msgs →
        ∃ i sc, index t_has (redis w) key !! i = Some sc
                ∧ ¬ expired q t_get (i, sc)
                ∧ string_at t_get (redis w) i = Some m.
Proof.
  intros q key s1 s2 Hroute Hk Hhas Hlimit Hle. destruct w as [s l]. cbn [redis sent] in *.
  assert (no_string s1 key) as Hk1 by by apply no_string_swept.
  assert (no_string s2 key) as Hk2 by by apply no_string_swept.
  rewrite (has_message_run _ _ _ _ Hk) in Hhas. cbn in Hhas. injection Hhas as Hhas.
  eexists. split; [by apply get_messages_run|].
  rewrite slice_limit by done. fold s2.
  set (z := unexpired q t_get (index t_get s1 key)).
  split; [|split].
  - rewrite omap_id_fmap.
    pose proof (length_omap_le (string_at t_get s2) (take (Z.to_nat (DeliveryRequest.limit request)) (ordered z).*1)).
    rewrite length_take in *. lia.
  - unfold DeliveryRequest.handle. rewrite Hroute. fold q key. unfold bind.
    rewrite (on_queue_run _ _ _ _ _ (has_message_run q t_has key _ Hk)). rewrite Hhas.
    fold s1.
    rewrite (on_queue_run _ _ _ _ _ (get_messages_run q t_get key _ _ Hk1)).
    fold s2 z. rewrite slice_limit by done. done.
  - intros m Hm. apply elem_of_omap_id, list_elem_of_fmap in Hm as [i [Hi Hin]].
    apply elem_of_take in Hin as (n & Hin & _). apply list_elem_of_lookup_2 in Hin.
    apply elem_of_ordered_fst in Hin as [sc Hsc].
    apply lookup_unexpired_Some in Hsc as [Hsc Hexp].
    exists i, sc.
    assert (index t_has s key !! i = Some sc) as Hidx.
    { destruct (index_later t_has t_get s1 key Hle) as [Heq|Heq]; rewrite Heq in Hsc; [|done].
      unfold s1 in Hsc. rewrite index_swept in Hsc.
      by apply lookup_unexpired_Some in Hsc as [? _]. }
    split; [done|]. split; [done|].
    destruct (decide (i = key)) as [->|Hne].
    { rewrite (string_at_no_string _ _ _ Hk2) in Hi. done. }
    rewrite Hi. apply string_at_ext.
    unfold s2, s1. by rewrite !lookup_swept_ne.
Qed.

Lemma delivery_request_delivers_witness :
  ∃ msgs s2 replies,
    get_messages_for_key ten_seconds 2 "K" 5 (swept ten_seconds 1 "K" one_message_store)
      = (Return msgs, s2)
    ∧ DeliveryRequest.handle (H := tagged_digest)
        {| DeliveryRequest.base := routed;
           DeliveryRequest.limit := 5;
           DeliveryRequest.recipient_key := None |}
        (context_of "K") 1 2 {| redis := one_message_store; sent := [] |}
      = (Return (), {| redis := s2; sent := replies |}).
Proof.
  destruct (delivery_request_delivers (H := tagged_digest)
              {| DeliveryRequest.base := routed;
                 DeliveryRequest.limit := 5;
                 DeliveryRequest.recipient_key := None |}
              (context_of "K") 1 2 {| redis := one_message_store; sent := [] |})
    as (msgs & Hget & _ & Hrun & _).
  - reflexivity.
  - exact no_string_one_message.
  - vm_compute. reflexivity.
  - cbn. lia.
  - lia.
  - eexists msgs, _, _. split; [exact Hget | exact Hrun].
Defined.

(** The store [MessagesReceived.handle] leaves. *)
Lemma messages_received_store (mr : MessagesReceived.t)
    (context : RequestContext) (t_has t_remove t_count : Z) (w : world) :
  let q := queue context in
  let key := sender_verkey context in
  let s1 := swept q t_has key (redis w) in
  let s2 := if bool_decide (unexpired q t_has (index t_has (redis w) key) ≠ ∅)
            then removed q t_remove key (elements (MessagesReceived.message_id_list mr)) s1
            else s1 in
  lacks_return_route_all (MessagesReceived.base mr) = false →
  no_string (redis w) key →
  redis (MessagesReceived.handle mr context t_has t_remove t_count w).2 =
    swept q t_count key s2.
Proof.
  intros q key s1 s2 Hroute Hk. destruct w as [s l]. cbn [redis sent] in *.
  assert (no_string s1 key) as Hk1 by by apply no_string_swept.
  assert (no_string s2 key) as Hk2.
  { subst s2. case_bool_decide; [|done]. by apply no_string_removed. }
  unfold MessagesReceived.handle. rewrite Hroute. fold q key. unfold bind.
  rewrite (on_queue_run _ _ _ _ _ (has_message_run q t_has key _ Hk)). fold s1.
  assert ((if bool_decide (unexpired q t_has (index t_has s key) ≠ ∅)
           then on_queue (remove_messages_for_key q t_remove key
                            (elements (MessagesReceived.message_id_list mr)))
           else ret ()) {| redis := s1; sent := l |}
          = (Return (), {| redis := s2; sent := l |})) as ->.
  { subst s2. case_bool_decide; [|done].
    by rewrite (on_queue_run _ _ _ _ _ (remove_messages_run q t_remove key _ _ Hk1)). }
  by rewrite (on_queue_run _ _ _ _ _ (message_count_run q t_count key _ Hk2)).
Qed.

Lemma index_later_lookup now now' s k i :
  now ≤ now' → index now s k !! i = None → index now' s k !! i = None.
Proof.
  intros Hle Hi. by destruct (index_later now now' s k Hle) as [-> | ->].
Qed.

Lemma unexpired_lookup_None self now z i :
  z !! i = None → unexpired self now z !! i = None.
Proof. intros Hz. apply map_lookup_filter_None. by left. Qed.

(** The identifiers a MessagesReceived message named are out of the index
    of the store it leaves. *)
Lemma acknowledged_struck (mr : MessagesReceived.t)
    (context : RequestContext) (t_has t_remove t_count now : Z) (w : world) (i : string) :
  lacks_return_route_all (MessagesReceived.base mr) = false →
  no_string (redis w) (sender_verkey context) →
  t_has ≤ t_remove →
  t_remove ≤ t_count →
  t_count ≤ now →
  i ∈ MessagesReceived.message_id_list mr →
  index now (redis (MessagesReceived.handle mr context t_has t_remove t_count w).2)
    (sender_verkey context) !! i = None.
Proof.
  intros Hroute Hk H1 H2 H3 Hi.
  rewrite (messages_received_store mr context t_has t_remove t_count w Hroute Hk).
  set (q := queue context). set (key := sender_verkey context).
  apply (index_later_lookup t_count now); [done|].
  rewrite index_swept. apply unexpired_lookup_None.
  case_bool_decide as Hhas.
  - apply (index_later_lookup t_remove t_count); [done|].
    apply index_removed_named. by apply elem_of_elements.
  - apply (index_later_lookup t_has t_count); [lia|].
    rewrite index_swept.
    destruct (decide (unexpired q t_has (index t_has (redis w) key) = ∅)) as [->|Hne]; [done|].
    by destruct Hhas.
Qed.

(** X12. After a MessagesReceived message has been handled, none of the
    identifiers it acknowledged is in the sender's index: whether the
    removal ran or the mailbox was found empty, a read at the time of the
    count or later finds none of them among the entries it answers from. *)
Theorem messages_received_strikes_acknowledged (mr : MessagesReceived.t)
    (context : RequestContext) (t_has t_remove t_count now : Z) (w : world) (i : string) :
  let q := queue context in
  let key := sender_verkey context in
  let w' := (MessagesReceived.handle mr context t_has t_remove t_count w).2 in
  lacks_return_route_all (MessagesReceived.base mr) = false →
  no_string (redis w) key →
  t_has ≤ t_remove →
  t_remove ≤ t_count →
  t_count ≤ now →
  i ∈ MessagesReceived.message_id_list mr →
  index now (redis w') key !! i = None
  ∧ unexpired q now (index now (redis w') key) !! i = None.
Proof.
  intros q key w' Hroute Hk H1 H2 H3 Hi.
  pose proof (acknowledged_struck mr context t_has t_remove t_count now w i
                Hroute Hk H1 H2 H3 Hi) as Hnone.
  split; [done|]. by apply unexpired_lookup_None.
Qed.

Lemma messages_received_strikes_acknowledged_witness :
  unexpired ten_seconds 4
    (index 4
       (redis (MessagesReceived.handle
                 {| MessagesReceived.base := routed;
                    MessagesReceived.message_id_list := {["id:m"%string]} |}
                 (context_of "K") 1 2 3 {| redis := two_message_store; sent := [] |}).2)
       "K") !! "id:m"%string = None.
Proof.
  refine (proj2 (messages_received_strikes_acknowledged
           {| MessagesReceived.base := routed;
              MessagesReceived.message_id_list := {["id:m"%string]} |}
           (context_of "K") 1 2 3 4 {| redis := two_message_store; sent := [] |}
           "id:m"%string _ _ _ _ _ _)).
  - reflexivity.
  - exact no_string_two_message.
  - lia.
  - lia.
  - lia.
  - cbn [MessagesReceived.message_id_list]. apply elem_of_singleton_2. reflexivity.
Defined.

(** * Sessions and the undeliverable event *)

Lemma session_among_spec (values : list InboundSession) (key : string) :
  match session_among values key with
  | Some session =>
      ∃ earlier later,
        values = earlier ++ session :: later
        ∧ key ∈ reply_verkeys session
        ∧ ∀ other, other ∈ earlier → key ∉ reply_verkeys other
  | None => ∀ other, other ∈ values → key ∉ reply_verkeys other
  end.
Proof.
  induction values as [|session rest IH]; cbn.
  - intros other Hin. by apply not_elem_of_nil in Hin.
  - case_bool_decide as Hkey.
    + exists [], rest. split; [done|]. split; [done|].
      intros other Hin. by apply not_elem_of_nil in Hin.
    + destruct (session_among rest key) as [found|].
      * destruct IH as (earlier & later & -> & Hfound & Hearlier).
        exists (session :: earlier), later. split; [done|]. split; [done|].
        intros other Hin. apply elem_of_cons in Hin as [->|Hin]; auto.
      * intros other Hin. apply elem_of_cons in Hin as [->|Hin]; auto.
Qed.

(** X13. [determine_session] returns the first session, in the order of
    the manager's dictionary, whose reply keys contain the key, and nothing
    exactly when no session's reply keys contain it. *)
Theorem determine_session_first_match (manager : InboundTransportManager) (key : string) :
  match determine_session manager key with
  | Some session =>
      ∃ earlier later,
        (sessions manager).*2 = earlier ++ session :: later
        ∧ key ∈ reply_verkeys session
        ∧ ∀ other, other ∈ earlier → key ∉ reply_verkeys other
  | None => ∀ other, other ∈ (sessions manager).*2 → key ∉ reply_verkeys other
  end.
Proof. apply session_among_spec. Qed.

Lemma index_zset_lookup now (s : db) k z d i sc :
  s !! k = Some (Entry (RZSet z) d) →
  index now s k !! i = Some sc → z !! i = Some sc.
Proof.
  intros Hs. rewrite (index_lookup_zset _ _ _ _ _ Hs). by destruct (alive _ _).
Qed.

Section undeliverable_facts.
Context `{Digest} {E P : Type}.
Variable IndexError : E.
Variable encode_message : P → list string → list string → option string → E + bytes.
Variable protected_recipients : bytes → E + list (E + string).

(** The store the loop of [undeliverable] leaves when every entry names
    its recipient and every call falls in the window from [T0] to [T1],
    shorter than the retention time. *)
Lemma add_for_recipients_run (queue : t) (clock : nat → Z) (T0 T1 : Z)
    (enc_payload : bytes) :
  let i := message_id_for_outbound (Bytes enc_payload) in
  0 < ttl_seconds queue →
  T1 < T0 + ttl_seconds queue →
  ∀ (recipients : list string) (n : nat) (s : db),
    (∀ j, (n ≤ j < n + length recipients)%nat → T0 ≤ clock j ∧ clock j ≤ T1) →
    (∀ r, r ∈ recipients →
       r ≠ i ∧ no_string s r ∧ ∀ T sc, index T s r !! i = Some sc → T0 ≤ sc) →
    ∃ s',
      add_for_recipients (E := E) queue clock n (inr <$> recipients) enc_payload s
        = (Completed, s')
      ∧ (recipients = [] → s' = s)
      ∧ (∀ k, k ∉ recipients → k ≠ i → s' !! k = s !! k)
      ∧ (recipients ≠ [] →
         ∃ d, s' !! i = Some (Entry (RString enc_payload) (Some d))
              ∧ T0 + ttl_seconds queue ≤ d)
      ∧ ∀ r, r ∈ recipients →
          ∃ z d sc, s' !! r = Some (Entry (RZSet z) (Some d))
                    ∧ T0 + ttl_seconds queue ≤ d
                    ∧ z !! i = Some sc ∧ T0 ≤ sc.
Proof.
  intros i Httl Hwin recipients.
  induction recipients as [|r1 rest IH]; intros n s Hclock Hpre.
  { exists s. split; [done|]. split; [done|]. split; [done|]. split; [done|].
    intros r Hr. by apply not_elem_of_nil in Hr. }
  destruct (Hpre r1) as (Hne1 & Hk1 & Hsc1); [by left|].
  destruct (Hclock n) as [Hn0 Hn1]; [cbn; lia|].
  set (Tn := clock n) in *.
  set (s1 := added queue Tn r1 enc_payload s).
  assert (s1 !! r1 = Some (Entry (RZSet (enqueued (index Tn s r1) i Tn))
                                 (Some (Tn + ttl_seconds queue)))) as Hs1r
    by (by apply lookup_added_key).
  assert (∃ sc, enqueued (index Tn s r1) i Tn !! i = Some sc ∧ T0 ≤ sc) as (sc1 & Hsc1' & Hsc1'').
  { unfold enqueued. destruct (index Tn s r1 !! i) as [sc|] eqn:Hi.
    - exists sc. split; [done|]. by eapply Hsc1.
    - exists Tn. by rewrite lookup_insert_eq. }
  destruct (IH (S n) s1) as (s' & Hrun & Hnil & Hframe & Hpayload & Hkeys).
  { intros j Hj. apply Hclock. cbn. lia. }
  { intros r Hr. destruct (Hpre r) as (Hne & Hk & Hsc); [by right|].
    split; [done|]. destruct (decide (r = r1)) as [->|Hr1].
    - split; [by eapply no_string_lookup_zset|].
      intros T sc Hi. apply (index_zset_lookup _ _ _ _ _ _ _ Hs1r) in Hi.
      apply lookup_enqueued in Hi as [Hi|[_ ->]]; [by eapply Hsc1|done].
    - assert (s1 !! r = s !! r) as Heq by (by apply lookup_added_ne).
      split; [intros v d; rewrite Heq; apply Hk|].
      intros T sc. rewrite (index_ext T s1 s r Heq). apply Hsc. }
  exists s'. split.
  { cbn [fmap list_fmap add_for_recipients]. fold Tn.
    rewrite (add_message_run _ _ _ _ _ Httl Hk1). exact Hrun. }
  split; [done|].
  split.
  { intros k Hk Hki. rewrite Hframe; [|by intros ?; apply Hk; right|done].
    apply lookup_added_ne; [|done]. intros ->. apply Hk. by left. }
  assert (∃ d, s' !! i = Some (Entry (RString enc_payload) (Some d))
               ∧ T0 + ttl_seconds queue ≤ d) as Hi'.
  { destruct rest as [|r2 rest'].
    - rewrite (Hnil eq_refl). exists (Tn + ttl_seconds queue).
      split; [apply lookup_added_ident|lia].
    - by apply Hpayload. }
  split; [done|].
  intros r Hr. destruct (decide (r ∈ rest)) as [Hin|Hin]; [by apply Hkeys|].
  apply elem_of_cons in Hr as [->|Hr]; [|done].
  exists (enqueued (index Tn s r1) i Tn), (Tn + ttl_seconds queue), sc1.
  rewrite Hframe by done. split; [done|]. split; [lia|]. done.
Qed.

(** X15. [undeliverable] files the envelope for every recipient its
    protected header names.  When reading the envelope or its header
    raises, the handler raises the same before any [add_message] and the
    store is as it was.  When the header is read and every entry names its
    recipient, the payload not yet being queued for any of them and the
    calls falling in a window shorter than the retention time, the handler
    returns, and until the retention time of the first call runs out every
    recipient's mailbox reads as non-empty and lists the envelope. *)
Theorem undeliverable_reaches_every_recipient (queue : t) (clock : nat → Z)
    (outbound : OutboundMessage P) (enc : bytes) (s : db) :
  let i := message_id_for_outbound (Bytes enc) in
  let run := undeliverable IndexError encode_message protected_recipients
               queue clock outbound s in
  (∀ e, wire_form IndexError encode_message outbound = inl e →
     run = (HostRaised e, outbound, s))
  ∧ (wire_form IndexError encode_message outbound = inr enc →
     (∀ e, protected_recipients enc = inl e → run.1.1 = HostRaised e ∧ run.2 = s)
     ∧ ∀ (recipients : list string) (T0 T1 now : Z),
         protected_recipients enc = inr (inr <$> recipients) →
         0 < ttl_seconds queue →
         (∀ j, (j < length recipients)%nat → T0 ≤ clock j ∧ clock j ≤ T1) →
         T1 ≤ now →
         now < T0 + ttl_seconds queue →
         (∀ r, r ∈ recipients → r ≠ i ∧ no_string s r ∧ ∀ T, index T s r !! i = None) →
         run.1.1 = Completed
         ∧ enc_payload run.1.2 = Some enc
         ∧ ∀ r, r ∈ recipients →
             ∃ all s'',
               (has_message_for_key queue now r run.2).1 = Return true
               ∧ inspect_all_messages_for_key queue now r run.2 = (Return all, s'')
               ∧ Some enc ∈ all).
Proof.
  intros i run. split.
  { intros e He. unfold run, undeliverable. by rewrite He. }
  intros Hwire. split.
  { intros e He. unfold run, undeliverable. by rewrite Hwire, He. }
  intros recipients T0 T1 now Hdec Httl Hclock HT1 Hnow Hpre.
  destruct (add_for_recipients_run queue clock T0 T1 enc Httl ltac:(lia)
              recipients 0%nat s) as (s' & Hrun & _ & _ & Hpayload & Hkeys).
  { intros j Hj. apply Hclock. lia. }
  { intros r Hr. destruct (Hpre r Hr) as (Hne & Hk & Hfresh).
    split; [done|]. split; [done|]. intros T sc. by rewrite Hfresh. }
  assert (run = (Completed,
                 {| payload := payload outbound; enc_payload := Some enc;
                    target_list := target_list outbound |}, s')) as ->.
  { unfold run, undeliverable. by rewrite Hwire, Hdec, Hrun. }
  cbn [fst snd enc_payload]. split; [done|]. split; [done|].
  intros r Hr.
  destruct (Hpre r Hr) as (Hne & _ & _).
  destruct (Hkeys r Hr) as (z & d & sc & Hs'r & Hd & Hzi & Hsc).
  destruct Hpayload as (d' & Hs'i & Hd'); [by intros ->; apply not_elem_of_nil in Hr|].
  fold i in Hs'i, Hzi.
  pose proof (no_string_lookup_zset _ _ _ _ Hs'r) as Hk'.
  assert (index now s' r = z) as Hidx.
  { rewrite (index_lookup_zset _ _ _ _ _ Hs'r). unfold alive. cbn.
    by rewrite bool_decide_eq_true_2 by lia. }
  assert (unexpired queue now (index now s' r) !! i = Some sc) as Hun.
  { rewrite Hidx. apply lookup_unexpired_Some. split; [done|].
    unfold expired. cbn. lia. }
  eexists _, _. split; [|split; [by apply inspect_all_run|]].
  - rewrite (has_message_run _ _ _ _ Hk'). cbn. f_equal.
    apply bool_decide_eq_true_2. intros Hempty. by rewrite Hempty in Hun.
  - apply list_elem_of_fmap. exists i. split.
    + symmetry.
      rewrite (string_at_ext now _ s' i) by (by apply lookup_swept_ne).
      eapply string_at_lookup; [done|lia].
    + apply elem_of_ordered_fst. eauto.
Qed.

End undeliverable_facts.

Lemma undeliverable_reaches_every_recipient_witness :
  ∃ outbound s',
    undeliverable (H := tagged_digest) "IndexError"%string
      (λ (_ : bytes) _ _ _, inl "encode_message refused"%string)
      (λ _, inr [inr "K"%string; inr "L"%string])
      ten_seconds (λ j, 2 + Z.of_nat j)
      {| payload := "plain"%string; enc_payload := Some "n"%string; target_list := [] |}
      one_message_store = (Completed, outbound, s')
    ∧ ∃ all s'',
        inspect_all_messages_for_key ten_seconds 5 "L" s' = (Return all, s'')
        ∧ Some "n"%string ∈ all.
Proof.
  destruct (undeliverable_reaches_every_recipient (H := tagged_digest)
              "IndexError"%string
              (λ (_ : bytes) _ _ _, inl "encode_message refused"%string)
              (λ _, inr [inr "K"%string; inr "L"%string])
              ten_seconds (λ j, 2 + Z.of_nat j)
              {| payload := "plain"%string; enc_payload := Some "n"%string;
                 target_list := [] |}
              "n"%string one_message_store) as (_ & Hok).
  destruct (Hok eq_refl) as (_ & Hall).
  destruct (Hall ["K"; "L"]%string 2 3 5) as (Hdone & _ & Hreads).
  - reflexivity.
  - reflexivity.
  - cbn [length]. intros j Hj. lia.
  - lia.
  - reflexivity.
  - intros r Hr. apply elem_of_cons in Hr as [->|Hr];
      [|apply list_elem_of_singleton in Hr as ->].
    + split; [discriminate|]. split; [exact no_string_one_message|].
      intros T.
      assert (one_message_store !! "K"%string
              = Some (Entry (RZSet {["id:m"%string := 0]}) (Some 10))) as Hs
        by (vm_compute; reflexivity).
      rewrite (index_lookup_zset T _ _ _ _ Hs).
      destruct (alive T (Entry (RZSet {["id:m"%string := 0]}) (Some 10)));
        vm_compute; reflexivity.
    + split; [discriminate|]. split; [intros v d; vm_compute; discriminate|].
      intros T. vm_compute. reflexivity.
  - destruct (Hreads "L"%string) as (all & s'' & _ & Hi & Hin).
    + apply elem_of_cons. right. apply list_elem_of_singleton. reflexivity.
    + destruct (undeliverable (H := tagged_digest) "IndexError"%string
                  (λ (_ : bytes) _ _ _, inl "encode_message refused"%string)
                  (λ _, inr [inr "K"%string; inr "L"%string])
                  ten_seconds (λ j, 2 + Z.of_nat j)
                  {| payload := "plain"%string; enc_payload := Some "n"%string;
                     target_list := [] |}
                  one_message_store) as [[r outbound] s'] eqn:Hrun.
      cbn [fst snd] in Hdone, Hi, Hin. subst r.
      exists outbound, s'. split; [reflexivity|].
      exists all, s''. split; [exact Hi | exact Hin].
Defined.

(** * First in, first out *)

Lemma string_compare_lt_trans (a b c : string) :
  String.compare a b = Lt → String.compare b c = Lt → String.compare a c = Lt.
Proof.
  revert b c. induction a as [|x a IH]; intros [|y b] [|z c]; simpl; try done.
  destruct (Ascii.compare x y) eqn:Hxy; [| |done];
    destruct (Ascii.compare y z) eqn:Hyz; try done.
  - apply Ascii.compare_eq_iff in Hxy as ->. rewrite Hyz. apply IH.
  - apply Ascii.compare_eq_iff in Hxy as ->. by rewrite Hyz.
  - apply Ascii.compare_eq_iff in Hyz as <-. by rewrite Hxy.
  - intros _ _. unfold Ascii.compare in *.
    rewrite N.compare_lt_iff in *. assert (Hlt := N.lt_trans _ _ _ Hxy Hyz).
    apply N.compare_lt_iff in Hlt. by rewrite Hlt.
Qed.

Lemma string_leb_trans (a b c : string) :
  String.leb a b = true → String.leb b c = true → String.leb a c = true.
Proof.
  unfold String.leb.
  destruct (String.compare a b) eqn:Hab; [| |done];
    destruct (String.compare b c) eqn:Hbc; try done; intros _ _.
  - apply String.compare_eq_iff in Hab as ->. by rewrite Hbc.
  - apply String.compare_eq_iff in Hab as ->. by rewrite Hbc.
  - apply String.compare_eq_iff in Hbc as <-. by rewrite Hab.
  - by rewrite (string_compare_lt_trans _ _ _ Hab Hbc).
Qed.

#[global] Instance member_le_trans : Transitive member_le.
Proof.
  intros [a x] [b y] [c z]. unfold member_le. cbn.
  intros [?|[-> Hab]] [?|[-> Hbc]]; [left; lia..|].
  right. split; [done|]. by eapply string_leb_trans.
Qed.

Lemma ordered_sorted (z : gmap string Z) : StronglySorted member_le (ordered z).
Proof. apply StronglySorted_merge_sort; apply _. Qed.

(** A member with a score above every other comes last. *)
Lemma ordered_insert_last (z : gmap string Z) (i : string) (T : Z) :
  z !! i = None →
  (∀ j sc, z !! j = Some sc → sc < T) →
  ordered (<[i := T]> z) = ordered z ++ [(i, T)].
Proof.
  intros Hi Hlt. apply (StronglySorted_unique_strong member_le).
  - intros [a x] [b y] _ _. unfold member_le. cbn.
    intros [?|[Hxy Hab]] [?|[Hyx Hba]]; try lia.
    subst. f_equal. by apply String.leb_antisym.
  - apply ordered_sorted.
  - apply StronglySorted_app_2.
    + intros [j sc] e Hj He. apply list_elem_of_singleton in He as ->.
      apply elem_of_ordered in Hj. left. cbn. by eapply Hlt.
    + apply ordered_sorted.
    + repeat constructor.
  - rewrite !ordered_perm, map_to_list_insert by done.
    by rewrite Permutation_cons_append.
Qed.

(** X16. The mailbox is first in, first out.  A payload enqueued after
    every entry of the index is listed last: the listing of the key after
    [add_message] is the listing before it followed by the new payload, and
    [get_messages_for_key] without a limit returns the old messages followed
    by the new one. *)
Theorem add_message_listed_last `{Digest} (self : t) (T now : Z) (key : string)
    (msg : bytes) (s : db) :
  let i := message_id_for_outbound (Bytes msg) in
  let s1 := after (add_message self T key msg) s in
  0 < ttl_seconds self →
  key ≠ i →
  no_string s key →
  index T s key !! i = None →
  (∀ j sc, index T s key !! j = Some sc → sc < T) →
  index now s key = index T s key →
  T ≤ now →
  now < T + ttl_seconds self →
  ∃ old s0 s',
    inspect_all_messages_for_key self now key s = (Return old, s0)
    ∧ inspect_all_messages_for_key self now key s1 = (Return (old ++ [Some msg]), s')
    ∧ get_messages_for_key self now key 0 s1 = (Return (omap id old ++ [msg]), s').
Proof.
  intros i s1 Httl Hne Hk Hfresh Hold Hsame HT Hnow.
  assert (s1 = added self T key msg s) as ->
    by (unfold s1, after; by rewrite add_message_run).
  pose proof (no_string_added self T key msg s Hne) as Hk1.
  set (z := unexpired self now (index T s key)).
  assert (unexpired self now (index now (added self T key msg s) key) = <[i := T]> z) as Hz.
  { rewrite (index_added_key self T now key msg s Hne) by lia. fold i.
    unfold enqueued. rewrite Hfresh.
    apply unexpired_insert_fresh; [done|]. unfold expired. cbn. lia. }
  assert (z !! i = None) as Hzi by (by apply unexpired_lookup_None).
  assert (ordered (<[i := T]> z) = ordered z ++ [(i, T)]) as Hord.
  { apply ordered_insert_last; [done|]. intros j sc Hj.
    apply lookup_unexpired_Some in Hj as [Hj _]. by eapply Hold. }
  set (sw := swept self now key s).
  set (sw1 := swept self now key (added self T key msg s)).
  assert (string_at now sw1 <$> (ordered (<[i := T]> z)).*1
          = (string_at now sw <$> (ordered z).*1) ++ [Some msg]) as Hlist.
  { rewrite Hord, fmap_app, fmap_app. cbn. f_equal.
    - apply list_fmap_ext. intros n j Hj. apply list_elem_of_lookup_2 in Hj.
      apply elem_of_ordered_fst in Hj as [sc Hsc].
      destruct (decide (j = key)) as [->|Hjk].
      + rewrite !string_at_no_string; [done|by apply no_string_swept..].
      + apply string_at_ext. unfold sw1, sw. rewrite !lookup_swept_ne by done.
        apply lookup_added_ne; [done|]. intros Hji. unfold i in Hzi.
        rewrite Hji, Hzi in Hsc. discriminate Hsc.
    - do 2 f_equal.
      rewrite (string_at_ext now _ (added self T key msg s) i)
        by (by apply lookup_swept_ne).
      apply string_at_added. lia. }
  exists (string_at now sw <$> (ordered z).*1), sw, sw1.
  split; [|split].
  - rewrite (inspect_all_run _ _ _ _ Hk). by rewrite Hsame.
  - rewrite (inspect_all_run _ _ _ _ Hk1). rewrite Hz. fold sw1. by rewrite Hlist.
  - rewrite (get_messages_run _ _ _ _ _ Hk1). change (0 - 1) with (-1).
    rewrite slice_all, Hz. fold sw1. rewrite Hlist.
    by rewrite omap_app.
Qed.

Lemma add_message_listed_last_witness :
  ∃ old s0 s',
    inspect_all_messages_for_key ten_seconds 3 "K" one_message_store = (Return old, s0)
    ∧ inspect_all_messages_for_key ten_seconds 3 "K"
        (after (add_message (H := tagged_digest) ten_seconds 2 "K" "n") one_message_store)
      = (Return (old ++ [Some "n"%string]), s').
Proof.
  destruct (add_message_listed_last (H := tagged_digest) ten_seconds 2 3 "K" "n"
              one_message_store) as (old & s0 & s' & Hold & Hnew & _).
  - reflexivity.
  - discriminate.
  - exact no_string_one_message.
  - vm_compute. reflexivity.
  - intros j sc.
    assert (index 2 one_message_store "K" = {["id:m"%string := 0]}) as ->
      by (vm_compute; reflexivity).
    intros Hj. apply lookup_singleton_Some in Hj as [_ <-]. lia.
  - vm_compute. reflexivity.
  - lia.
  - reflexivity.
  - exists old, s0, s'. split; [exact Hold | exact Hnew].
Defined.

(** * Payloads and their identifiers *)

Lemma payloads_filed_store_zset `{Digest} k z d (s : db) :
  payloads_filed s → payloads_filed (store_zset k z d s).
Proof.
  intros Hs j v d'. destruct (decide (k = j)) as [->|Hne].
  - unfold store_zset. case_decide.
    + by rewrite lookup_delete_eq.
    + by rewrite lookup_insert_eq.
  - rewrite lookup_store_zset_ne by done. apply Hs.
Qed.

Lemma payloads_filed_swept `{Digest} self now k (s : db) :
  payloads_filed s → payloads_filed (swept self now k s).
Proof.
  intros Hs. unfold swept. case_decide; [done|]. by apply payloads_filed_store_zset.
Qed.

Lemma payloads_filed_delete_keys `{Digest} ks (s : db) :
  payloads_filed s → payloads_filed (foldr delete s ks).
Proof.
  intros Hs j v d. rewrite lookup_delete_keys. case_decide; [done|]. apply Hs.
Qed.

Lemma payloads_filed_removed `{Digest} self now k msg_idents (s : db) :
  payloads_filed s → payloads_filed (removed self now k msg_idents s).
Proof.
  intros Hs. unfold removed. destruct (nonempty _).
  - apply payloads_filed_delete_keys, payloads_filed_store_zset.
    by apply payloads_filed_swept.
  - by apply payloads_filed_swept.
Qed.

Lemma payloads_filed_added `{Digest} self now key msg (s : db) :
  payloads_filed s → payloads_filed (added self now key msg s).
Proof.
  intros Hs j v d. unfold added.
  destruct (decide (j = message_id_for_outbound (Bytes msg))) as [->|Hi].
  { rewrite lookup_insert_eq. by intros [= -> _]. }
  rewrite lookup_insert_ne by done.
  destruct (decide (j = key)) as [->|Hk].
  { by rewrite lookup_insert_eq. }
  rewrite lookup_insert_ne by done. apply Hs.
Qed.

Lemma string_at_Some now (s : db) k v :
  string_at now s k = Some v → ∃ d, s !! k = Some (Entry (RString v) d).
Proof.
  unfold string_at, live. destruct (s !! k) as [[[v'|z] d]|]; [|by destruct (alive _ _)|done].
  destruct (alive _ _); [|done]. intros [= ->]. eauto.
Qed.

Lemma slice_subseteq {A} (l : list A) (start stop : Z) : slice l start stop ⊆ l.
Proof.
  unfold slice. cbn zeta. case_bool_decide; [apply list_subseteq_nil|].
  etrans; [apply subseteq_take|apply subseteq_drop].
Qed.

(** Where the messages [get_messages_for_key] returns come from. *)
Lemma get_messages_from_index `{Digest} self now key N (s : db) m :
  no_string s key →
  payloads_filed s →
  m ∈ omap id (string_at now (swept self now key s) <$>
                 slice (ordered (unexpired self now (index now s key))).*1 0 (N - 1)) →
  ∃ sc, unexpired self now (index now s key) !! message_id_for_outbound (Bytes m) = Some sc
        ∧ string_at now s (message_id_for_outbound (Bytes m)) = Some m.
Proof.
  intros Hk Hs Hm.
  apply elem_of_omap_id, list_elem_of_fmap in Hm as [j [Hj Hin]].
  apply slice_subseteq, elem_of_ordered_fst in Hin as [sc Hsc].
  symmetry in Hj.
  destruct (string_at_Some _ _ _ _ Hj) as [d Hd].
  apply (payloads_filed_swept self now key s Hs) in Hd as Hid. subst j.
  exists sc. split; [done|].
  destruct (decide (message_id_for_outbound (Bytes m) = key)) as [Heq|Hne].
  - rewrite Heq in Hj.
    by rewrite (string_at_no_string _ _ _ (no_string_swept self now key key s Hk)) in Hj.
  - rewrite <- Hj. apply string_at_ext. symmetry. by apply lookup_swept_ne.
Qed.

(** X17. Every payload of the store stays filed under the identifier
    computed from its own bytes: each method of the queue keeps this, and
    on such a store every message [get_messages_for_key] returns has its
    identifier in the unexpired index of the key, so the identifier a
    recipient computes from a delivered message names it for removal. *)
Theorem payloads_stay_filed `{Digest} (self : t) (now : Z) (key : string)
    (msg : bytes) (N : Z) (msg_idents : list string) (s : db) :
  0 < ttl_seconds self →
  no_string s key →
  payloads_filed s →
  payloads_filed (after (add_message self now key msg) s)
  ∧ payloads_filed (after (has_message_for_key self now key) s)
  ∧ payloads_filed (after (message_count_for_key self now key) s)
  ∧ payloads_filed (after (get_messages_for_key self now key N) s)
  ∧ payloads_filed (after (inspect_all_messages_for_key self now key) s)
  ∧ payloads_filed (after (remove_messages_for_key self now key msg_idents) s)
  ∧ ∃ msgs s',
      get_messages_for_key self now key N s = (Return msgs, s')
      ∧ ∀ m, m ∈ msgs →
          is_Some (unexpired self now (index now s key) !! message_id_for_outbound (Bytes m))
          ∧ string_at now s (message_id_for_outbound (Bytes m)) = Some m.
Proof.
  intros Httl Hk Hs. unfold after.
  rewrite (add_message_run _ _ _ _ _ Httl Hk), (has_message_run _ _ _ _ Hk),
    (message_count_run _ _ _ _ Hk), (get_messages_run _ _ _ _ _ Hk),
    (inspect_all_run _ _ _ _ Hk), (remove_messages_run _ _ _ _ _ Hk).
  cbn [snd].
  split; [by apply payloads_filed_added|].
  split; [by apply payloads_filed_swept|].
  split; [by apply payloads_filed_swept|].
  split; [by apply payloads_filed_swept|].
  split; [by apply payloads_filed_swept|].
  split; [by apply payloads_filed_removed|].
  eexists _, _. split; [done|]. intros m Hm.
  destruct (get_messages_from_index self now key N s m Hk Hs Hm) as (sc & Hsc & Hat).
  split; [eauto|done].
Qed.

Lemma payloads_filed_one_message : payloads_filed (H := tagged_digest) one_message_store.
Proof.
  unfold one_message_store, after.
  rewrite (add_message_run (H := tagged_digest) ten_seconds 0 "K" "m" ∅);
    [|reflexivity|intros v d; by rewrite lookup_empty].
  apply (payloads_filed_added (H := tagged_digest) ten_seconds 0 "K" "m" ∅).
  intros j v d. by rewrite lookup_empty.
Qed.

Lemma payloads_stay_filed_witness :
  ∃ msgs s',
    get_messages_for_key ten_seconds 3 "K" 5 one_message_store = (Return msgs, s')
    ∧ ∀ m, m ∈ msgs →
        string_at 3 one_message_store (message_id_for_outbound (H := tagged_digest) (Bytes m))
        = Some m.
Proof.
  destruct (payloads_stay_filed (H := tagged_digest) ten_seconds 3 "K" "n" 5 []
              one_message_store) as (_ & _ & _ & _ & _ & _ & msgs & s' & Hget & Hall).
  - reflexivity.
  - exact no_string_one_message.
  - exact payloads_filed_one_message.
  - exists msgs, s'. split; [exact Hget|].
    intros m Hm. exact (proj2 (Hall m Hm)).
Defined.

Lemma no_string_received (mr : MessagesReceived.t) (context : RequestContext)
    (t_has t_remove t_count : Z) (w : world) k :
  lacks_return_route_all (MessagesReceived.base mr) = false →
  no_string (redis w) (sender_verkey context) →
  no_string (redis w) k →
  no_string (redis (MessagesReceived.handle mr context t_has t_remove t_count w).2) k.
Proof.
  intros Hroute Hkey Hk.
  rewrite (messages_received_store mr context t_has t_remove t_count w Hroute Hkey).
  apply no_string_swept. case_bool_decide.
  - by apply no_string_removed, no_string_swept.
  - by apply no_string_swept.
Qed.

Lemma payloads_filed_received `{Digest} (mr : MessagesReceived.t) (context : RequestContext)
    (t_has t_remove t_count : Z) (w : world) :
  lacks_return_route_all (MessagesReceived.base mr) = false →
  no_string (redis w) (sender_verkey context) →
  payloads_filed (redis w) →
  payloads_filed (redis (MessagesReceived.handle mr context t_has t_remove t_count w).2).
Proof.
  intros Hroute Hkey Hs.
  rewrite (messages_received_store mr context t_has t_remove t_count w Hroute Hkey).
  apply payloads_filed_swept. case_bool_decide.
  - by apply payloads_filed_removed, payloads_filed_swept.
  - by apply payloads_filed_swept.
Qed.

(** X18. What has been acknowledged is not delivered again.  After a
    MessagesReceived message, the reply to the sender's next
    DeliveryRequest, when it is a Delivery, carries no attachment whose
    identifier the acknowledgement named. *)
Theorem acknowledged_not_redelivered `{Digest} (mr : MessagesReceived.t)
    (dr : DeliveryRequest.t) (context : RequestContext)
    (t1 t2 t3 t4 t5 : Z) (w : world) :
  let key := sender_verkey context in
  let w1 := (MessagesReceived.handle mr context t1 t2 t3 w).2 in
  lacks_return_route_all (MessagesReceived.base mr) = false →
  lacks_return_route_all (DeliveryRequest.base dr) = false →
  no_string (redis w) key →
  payloads_filed (redis w) →
  t1 ≤ t2 → t2 ≤ t3 → t3 ≤ t4 → t4 ≤ t5 →
  ∃ reply w2,
    DeliveryRequest.handle dr context t4 t5 w1 = (Return (), w2)
    ∧ sent w2 = sent w1 ++ [reply]
    ∧ ∀ d a,
        reply = DeliveryReply d →
        a ∈ Delivery.message_attachments d →
        ident a ∉ MessagesReceived.message_id_list mr.
Proof.
  intros key w1 Hmr Hdr Hk Hs H12 H23 H34 H45.
  pose proof (no_string_received mr context t1 t2 t3 w key Hmr Hk Hk) as Hk1.
  pose proof (payloads_filed_received mr context t1 t2 t3 w Hmr Hk Hs) as Hs1.
  assert (∀ i, i ∈ MessagesReceived.message_id_list mr →
               index t4 (redis w1) key !! i = None) as Hack.
  { intros i Hi. by apply acknowledged_struck. }
  fold w1 in Hk1, Hs1. clearbody w1. destruct w1 as [s l]. cbn [redis sent] in *.
  set (q := queue context).
  unfold DeliveryRequest.handle. rewrite Hdr. fold q key. unfold bind.
  rewrite (on_queue_run _ _ _ _ _ (has_message_run q t4 key _ Hk1)).
  set (s1 := swept q t4 key s).
  assert (no_string s1 key) as Hk2 by by apply no_string_swept.
  assert (payloads_filed s1) as Hs2 by by apply payloads_filed_swept.
  case_bool_decide as Hhas.
  - rewrite (on_queue_run _ _ _ _ _ (get_messages_run q t5 key _ _ Hk2)).
    eexists _, _. split; [done|]. split; [done|].
    intros d a [= <-] Ha. cbn in Ha.
    apply list_elem_of_fmap in Ha as [m [-> Hm]]. cbn [ident].
    destruct (get_messages_from_index q t5 key _ s1 m Hk2 Hs2 Hm) as (sc & Hsc & _).
    intros Hin. apply lookup_unexpired_Some in Hsc as [Hsc _].
    rewrite (index_later_lookup t4 t5 s1 key _ H45) in Hsc; [done|].
    unfold s1. rewrite index_swept. apply unexpired_lookup_None. by apply Hack.
  - eexists _, _. split; [done|]. split; [done|]. by intros d a [=].
Qed.

Lemma payloads_filed_two_message : payloads_filed (H := tagged_digest) two_message_store.
Proof.
  unfold two_message_store, after.
  rewrite (add_message_run (H := tagged_digest) ten_seconds 9 "K" "n" one_message_store);
    [|reflexivity|exact no_string_one_message].
  apply (payloads_filed_added (H := tagged_digest)). exact payloads_filed_one_message.
Qed.

Lemma acknowledged_not_redelivered_witness :
  ∃ reply w2,
    DeliveryRequest.handle (H := tagged_digest)
      {| DeliveryRequest.base := routed;
         DeliveryRequest.limit := 5;
         DeliveryRequest.recipient_key := None |}
      (context_of "K") 11 12
      (MessagesReceived.handle
         {| MessagesReceived.base := routed;
            MessagesReceived.message_id_list := {["id:m"%string]} |}
         (context_of "K") 9 9 10 {| redis := two_message_store; sent := [] |}).2
    = (Return (), w2)
    ∧ ∀ d a,
        reply = DeliveryReply d →
        a ∈ Delivery.message_attachments d →
        ident a ∉ ({["id:m"%string]} : gset string).
Proof.
  destruct (acknowledged_not_redelivered (H := tagged_digest)
              {| MessagesReceived.base := routed;
                 MessagesReceived.message_id_list := {["id:m"%string]} |}
              {| DeliveryRequest.base := routed;
                 DeliveryRequest.limit := 5;
                 DeliveryRequest.recipient_key := None |}
              (context_of "K") 9 9 10 11 12 {| redis := two_message_store; sent := [] |})
    as (reply & w2 & Hrun & _ & Hnot).
  - reflexivity.
  - reflexivity.
  - exact no_string_two_message.
  - exact payloads_filed_two_message.
  - lia.
  - lia.
  - lia.
  - lia.
  - exists reply, w2. split; [exact Hrun | exact Hnot].
Defined.

(** * Adding the same payload twice *)

(** What the four reads return depends on the index of the key and on the
    payloads alone. *)
Lemma reads_ext self now key N (s s' : db) :
  no_string s key →
  no_string s' key →
  index now s' key = index now s key →
  (∀ j, string_at now s' j = string_at now s j) →
  (has_message_for_key self now key s').1 = (has_message_for_key self now key s).1
  ∧ (message_count_for_key self now key s').1 = (message_count_for_key self now key s).1
  ∧ (inspect_all_messages_for_key self now key s').1 =
      (inspect_all_messages_for_key self now key s).1
  ∧ (get_messages_for_key self now key N s').1 = (get_messages_for_key self now key N s).1.
Proof.
  intros Hk Hk' Hidx Hat.
  rewrite (has_message_run _ _ _ _ Hk), (has_message_run _ _ _ _ Hk').
  rewrite (message_count_run _ _ _ _ Hk), (message_count_run _ _ _ _ Hk').
  rewrite (inspect_all_run _ _ _ _ Hk), (inspect_all_run _ _ _ _ Hk').
  rewrite (get_messages_run _ _ _ _ _ Hk), (get_messages_run _ _ _ _ _ Hk').
  rewrite Hidx. cbn [fst].
  assert (∀ j, string_at now (swept self now key s') j
               = string_at now (swept self now key s) j) as Hsw.
  { intros j. destruct (decide (j = key)) as [->|Hne].
    - rewrite !string_at_no_string; [done|by apply no_string_swept..].
    - rewrite (string_at_ext now (swept self now key s') s' j)
        by (by apply lookup_swept_ne).
      rewrite (string_at_ext now (swept self now key s) s j)
        by (by apply lookup_swept_ne).
      apply Hat. }
  split; [done|]. split; [done|].
  split.
  - f_equal. apply list_fmap_ext. intros ???. apply Hsw.
  - do 2 f_equal. apply list_fmap_ext. intros ???. apply Hsw.
Qed.

(** C5, amended.  A second [add_message] of a payload under its key,
    made while the index of the first call is retained, adds no entry and
    keeps the score of the first call: the index is the one the first call
    left, and until that score runs out every read returns what it returns
    without the second call, so the entry keeps its place among the others
    and a mailbox that was empty counts 1.  The second call does not renew
    the entry: once the first score has run out the entry is swept, however
    recent the second call, and a mailbox that was empty counts 0.  A second
    call made after the index has lapsed files the payload anew, alone and
    with its own score. *)
Theorem add_twice_keeps_first_score `{Digest} (self : t) (T1 T2 : Z)
    (key : string) (msg : bytes) (s : db) :
  let i := message_id_for_outbound (Bytes msg) in
  let z := index T1 s key in
  0 < ttl_seconds self →
  key ≠ i →
  no_string s key →
  z !! i = None →
  T1 ≤ T2 →
  ∃ s1 s2,
    add_message self T1 key msg s = (Return (), s1)
    ∧ add_message self T2 key msg s1 = (Return (), s2)
    ∧ (T2 ≤ T1 + ttl_seconds self →
       (∀ now, now ≤ T2 + ttl_seconds self → index now s2 key = <[i := T1]> z)
       ∧ (∀ now N, now < T1 + ttl_seconds self →
            (has_message_for_key self now key s2).1 = (has_message_for_key self now key s1).1
            ∧ (message_count_for_key self now key s2).1 =
                (message_count_for_key self now key s1).1
            ∧ (inspect_all_messages_for_key self now key s2).1 =
                (inspect_all_messages_for_key self now key s1).1
            ∧ (get_messages_for_key self now key N s2).1 =
                (get_messages_for_key self now key N s1).1
            ∧ (message_count_for_key self now key s2).1 =
                Return (1 + Z.of_nat (size (unexpired self now z))))
       ∧ (∀ now, 0 ≤ T1 → T1 + ttl_seconds self ≤ now → now ≤ T2 + ttl_seconds self →
            unexpired self now (index now s2 key) !! i = None
            ∧ (message_count_for_key self now key s2).1 =
                Return (Z.of_nat (size (unexpired self now z)))))
    ∧ (T1 + ttl_seconds self < T2 →
       ∀ now, T2 ≤ now → now < T2 + ttl_seconds self →
         index now s2 key = {[i := T2]}
         ∧ (message_count_for_key self now key s2).1 = Return 1).
Proof.
  intros i z Httl Hne Hk Hfresh HT.
  set (s1 := added self T1 key msg s).
  set (s2 := added self T2 key msg s1).
  pose proof (no_string_added self T1 key msg s Hne) as Hk1. fold s1 in Hk1.
  pose proof (no_string_added self T2 key msg s1 Hne) as Hk2. fold s2 in Hk2.
  assert (s1 !! key = Some (Entry (RZSet (<[i := T1]> z)) (Some (T1 + ttl_seconds self))))
    as Hs1.
  { unfold s1. rewrite lookup_added_key by done. fold i z. unfold enqueued.
    by rewrite Hfresh. }
  exists s1, s2.
  split; [by apply add_message_run|].
  split; [by apply add_message_run|].
  split.
  - intros HT2.
    assert (index T2 s1 key = <[i := T1]> z) as Hidx1.
    { rewrite (index_lookup_zset _ _ _ _ _ Hs1). unfold alive. cbn.
      by rewrite bool_decide_eq_true_2. }
    assert (s2 !! key = Some (Entry (RZSet (<[i := T1]> z)) (Some (T2 + ttl_seconds self))))
      as Hs2.
    { unfold s2. rewrite lookup_added_key by done. fold i. rewrite Hidx1.
      unfold enqueued. by rewrite lookup_insert_eq. }
    assert (∀ now, now ≤ T2 + ttl_seconds self → index now s2 key = <[i := T1]> z) as Hidx2.
    { intros now Hnow. rewrite (index_lookup_zset _ _ _ _ _ Hs2). unfold alive. cbn.
      by rewrite bool_decide_eq_true_2. }
    split; [done|]. split.
    + intros now N Hnow.
      assert (index now s1 key = <[i := T1]> z) as Hidx1'.
      { rewrite (index_lookup_zset _ _ _ _ _ Hs1). unfold alive. cbn.
        by rewrite bool_decide_eq_true_2 by lia. }
      destruct (reads_ext self now key N s1 s2 Hk1 Hk2) as (Hh & Hc & Hi & Hg).
      { rewrite Hidx2 by lia. done. }
      { intros j. destruct (decide (j = i)) as [->|Hji].
        - unfold s2, i. rewrite string_at_added by lia.
          unfold s1. by rewrite string_at_added by lia.
        - destruct (decide (j = key)) as [->|Hjk].
          + by rewrite !string_at_no_string.
          + apply string_at_ext. unfold s2. by apply lookup_added_ne. }
      split; [done|]. split; [done|]. split; [done|]. split; [done|].
      rewrite (message_count_run _ _ _ _ Hk2), Hidx2 by lia. cbn [fst].
      rewrite unexpired_insert_fresh; [|done|unfold expired; cbn; lia].
      rewrite map_size_insert_None by (by apply unexpired_lookup_None).
      do 2 f_equal. lia.
    + intros now HT1 Hlo Hhi.
      assert (unexpired self now (<[i := T1]> z) = unexpired self now z) as Hun.
      { unfold unexpired. rewrite map_filter_insert_False, delete_id; [done..|].
        intros Hn. apply Hn. unfold expired. cbn. lia. }
      rewrite (message_count_run _ _ _ _ Hk2), Hidx2, Hun by done.
      split; [by apply unexpired_lookup_None|done].
  - intros HT2 now Hlo Hhi.
    assert (index T2 s1 key = ∅) as Hidx1.
    { rewrite (index_lookup_zset _ _ _ _ _ Hs1). unfold alive. cbn.
      by rewrite bool_decide_eq_false_2 by lia. }
    assert (s2 !! key = Some (Entry (RZSet {[i := T2]}) (Some (T2 + ttl_seconds self))))
      as Hs2.
    { unfold s2. rewrite lookup_added_key by done. fold i.
      by rewrite Hidx1, enqueued_empty. }
    split.
    + apply (index_single _ _ _ _ _ _ Hs2). lia.
    + rewrite (single_count self now s2 key i T2 _ Hs2); [done|lia|].
      unfold expired. cbn. lia.
Qed.

Lemma add_twice_keeps_first_score_witness :
  ∃ s1 s2,
    add_message (H := tagged_digest) ten_seconds 0 "K" "m" ∅ = (Return (), s1)
    ∧ add_message (H := tagged_digest) ten_seconds 4 "K" "m" s1 = (Return (), s2)
    ∧ (message_count_for_key ten_seconds 9 "K" s2).1 = Return 1
    ∧ (message_count_for_key ten_seconds 10 "K" s2).1 = Return 0.
Proof.
  destruct (add_twice_keeps_first_score (H := tagged_digest) ten_seconds 0 4 "K" "m" ∅)
    as (s1 & s2 & Hadd1 & Hadd2 & Hkept & _).
  - reflexivity.
  - discriminate.
  - intros v d. vm_compute. discriminate.
  - vm_compute. reflexivity.
  - lia.
  - destruct Hkept as (_ & Hbefore & Hafter); [vm_compute; discriminate|].
    exists s1, s2. split; [exact Hadd1|]. split; [exact Hadd2|]. split.
    + destruct (Hbefore 9 0) as (_ & _ & _ & _ & Hc); [reflexivity|].
      exact Hc.
    + destruct (Hafter 10) as (_ & Hc);
        [vm_compute; discriminate|vm_compute; discriminate|vm_compute; discriminate|].
      exact Hc.
Defined.

(** C5, as stated, fails: with a retention of ten seconds, a payload
    added at time 0 and again at time 4 to an empty mailbox is counted 0
    times at time 10, six seconds after the second call. *)
Lemma add_twice_count_counterexample :
  ¬ (∀ (H : Digest) (self : t) (T1 T2 now : Z) (key : string) (msg : bytes),
       0 < ttl_seconds self →
       key ≠ message_id_for_outbound (Bytes msg) →
       T1 ≤ T2 →
       T2 ≤ now →
       now < T2 + ttl_seconds self →
       (message_count_for_key self now key
          (after (add_message self T2 key msg)
             (after (add_message self T1 key msg) ∅))).1 = Return 1).
Proof.
  intros Hclaim.
  specialize (Hclaim tagged_digest ten_seconds 0 4 10 "K"%string "m"%string).
  assert ((message_count_for_key ten_seconds 10 "K"
             (after (add_message (H := tagged_digest) ten_seconds 4 "K" "m")
                (after (add_message (H := tagged_digest) ten_seconds 0 "K" "m") ∅))).1
          = Return 0) as Hcount by (vm_compute; reflexivity).
  rewrite Hcount in Hclaim.
  assert (Return 0 = Return 1 → False) as Hne by discriminate.
  apply Hne, Hclaim; [reflexivity|discriminate|lia|lia|reflexivity].
Qed.
